(** * rss_crawler: link extraction, retrying feed fetch, link store and crawl cycle

    A shallow embedding of [src/rss_crawler.py] (class [RSSCrawler]) and the
    properties of it that the specification states.

    Python [str] values are sequences of Unicode code points; they are
    modelled as [list N].  Python sets of strings are [gset (list N)]. *)

From stdpp Require Import gmap strings list.
From Stdlib Require Import NArith Ascii.

Abbreviation text := (list N).

(** An ASCII literal of the source, as code points. *)
Definition str (s : string) : text :=
  map Ascii.N_of_ascii (String.list_ascii_of_string s).

(** ** Characters

    The only Unicode table the patterns of the source consult beyond ASCII
    is the one behind [\w]; it is not part of the repository and is taken
    as a parameter.  Whitespace ([\s], [str.strip]) and the few non-ASCII
    characters that case-fold onto ASCII letters are finite lists. *)

Class Unicode := { uni_word : N → bool }.

Module Chr.

Definition in_range (lo hi c : N) : bool := ((lo <=? c) && (c <=? hi))%N.

Definition is_digit (c : N) : bool := in_range 48 57 c.
Definition is_upper (c : N) : bool := in_range 65 90 c.
Definition is_lower (c : N) : bool := in_range 97 122 c.

(** [\w] on a [str] pattern: ASCII letters, digits and underscore, and
    whatever the Unicode table says above U+007F. *)
Definition is_word `{Unicode} (c : N) : bool :=
  if (c <? 128)%N
  then is_digit c || is_upper c || is_lower c || (c =? 95)%N
  else uni_word c.

(** [str.isspace], which is also what [\s] matches. *)
Definition spaces : list N :=
  [9; 10; 11; 12; 13; 28; 29; 30; 31; 32; 133; 160; 5760;
   8192; 8193; 8194; 8195; 8196; 8197; 8198; 8199; 8200; 8201; 8202;
   8232; 8233; 8239; 8287; 12288]%N.

Definition is_space (c : N) : bool := existsb (N.eqb c) spaces.

(** Case folding under [re.IGNORECASE]: upper-case ASCII letters, and the
    four non-ASCII characters that lower-case onto an ASCII letter
    (KELVIN SIGN, LONG S, dotted capital I, dotless i). *)
Definition fold_case (c : N) : N :=
  if is_upper c then (c + 32)%N
  else if (c =? 8490)%N then 107%N
  else if (c =? 383)%N then 115%N
  else if (c =? 304)%N || (c =? 305)%N then 105%N
  else c.

Definition upcase (c : N) : N := if is_lower c then (c - 32)%N else c.

Definition ci_eq (c d : N) : bool := (fold_case c =? fold_case d)%N.

End Chr.

(** A table for the worked examples below: above U+007F it knows the CJK
    unified ideographs as word characters.  The examples are in ASCII and
    never consult it. *)
Definition cjk_table : Unicode :=
  {| uni_word := Chr.in_range 19968 40959 |}.

(** ** Regular expressions

    The fragment of Python's [re] syntax that the patterns of the source
    use, matched with [re.IGNORECASE] as every call in the source does. *)

Module Re.

Inductive citem : Type :=
| CChar (c : N)            (* a character inside [...] *)
| CRange (lo hi : N)       (* lo-hi *)
| CWord                    (* \w *)
| CSpace.                  (* \s *)

Inductive re : Type :=
| Eps
| Lit (c : N)                       (* one literal character *)
| Cls (neg : bool) (items : list citem)   (* [...] and [^...] *)
| Cat (r1 r2 : re)
| Opt (r : re)                      (* r?  *)
| Star (r : re)                     (* r*  *)
| Plus (r : re)                     (* r+  *)
| Rep (n : nat) (r : re)            (* r{n} *)
| Grp (r : re).                     (* (r), capturing *)

(** Captured groups, most recent first. *)
Abbreviation caps := (list (nat * text)).

Fixpoint ngroups (r : re) : nat :=
  match r with
  | Eps | Lit _ | Cls _ _ => 0
  | Cat r1 r2 => ngroups r1 + ngroups r2
  | Opt r | Star r | Plus r | Rep _ r => ngroups r
  | Grp r => S (ngroups r)
  end.

Definition group (c : caps) (i : nat) : text :=
  match find (λ p, Nat.eqb (fst p) i) c with
  | Some p => snd p
  | None => []          (* a group that took no part reads as the empty string *)
  end.

(** What was consumed between [s] and its suffix [s']. *)
Definition consumed (s s' : text) : text := take (length s - length s') s.

Section Matching.
Context `{Unicode}.

Definition item_match (i : citem) (d : N) : bool :=
  match i with
  | CChar c => Chr.ci_eq c d
  | CRange lo hi =>
      Chr.in_range lo hi d || Chr.in_range lo hi (Chr.fold_case d)
      || Chr.in_range lo hi (Chr.upcase (Chr.fold_case d))
  | CWord => Chr.is_word d
  | CSpace => Chr.is_space d
  end.

Definition class_match (neg : bool) (items : list citem) (d : N) : bool :=
  xorb neg (existsb (λ i, item_match i d) items).

(** The backtracking matcher gives, for a pattern and a position, every way
    the pattern can end from there, in the order in which [re] tries them;
    the head of the list is the match [re] reports. *)

Definition and_then (l : list (text * caps)) (k : text → list (text * caps))
  : list (text * caps) :=
  flat_map (λ e1, (λ e2, (fst e2, snd e2 ++ snd e1)) <$> k (fst e1)) l.

(** Greedy repetition: one more round first, stopping here last.  A round
    that consumes nothing ends the repetition. *)
Fixpoint iter_star (step : text → list (text * caps)) (fuel : nat) (s : text)
  : list (text * caps) :=
  match fuel with
  | 0 => [(s, [])]
  | S f =>
      flat_map (λ e1,
          if Nat.ltb (length (fst e1)) (length s)
          then (λ e2, (fst e2, snd e2 ++ snd e1)) <$> iter_star step f (fst e1)
          else [])
        (step s)
      ++ [(s, [])]
  end.

Fixpoint iter_rep (step : text → list (text * caps)) (n : nat) (s : text)
  : list (text * caps) :=
  match n with
  | 0 => [(s, [])]
  | S k => and_then (step s) (iter_rep step k)
  end.

(** [base] is the number of groups opened to the left of [r]. *)
Fixpoint ends (r : re) (base : nat) (s : text) {struct r} : list (text * caps) :=
  match r with
  | Eps => [(s, [])]
  | Lit c =>
      match s with
      | d :: s' => if Chr.ci_eq c d then [(s', [])] else []
      | [] => []
      end
  | Cls neg items =>
      match s with
      | d :: s' => if class_match neg items d then [(s', [])] else []
      | [] => []
      end
  | Cat r1 r2 => and_then (ends r1 base s) (ends r2 (base + ngroups r1))
  | Opt r => ends r base s ++ [(s, [])]
  | Star r => iter_star (ends r base) (length s) s
  | Plus r =>
      and_then (ends r base s) (λ s1, iter_star (ends r base) (length s1) s1)
  | Rep n r => iter_rep (ends r base) n s
  | Grp r =>
      (λ e, (fst e, (S base, consumed s (fst e)) :: snd e)) <$> ends r (S base) s
  end.

(** Left-to-right scan for non-overlapping matches; [skip] counts the
    characters of the last match still to be stepped over. *)
Fixpoint scan (r : re) (skip : nat) (s : text) {struct s} : list (text * caps) :=
  match skip with
  | S k => match s with [] => [] | _ :: s' => scan r k s' end
  | 0 =>
      match ends r 0 s with
      | e :: _ =>
          (consumed s (fst e), snd e)
          :: match s with
             | [] => []
             | _ :: s' => scan r (pred (length (consumed s (fst e)))) s'
             end
      | [] => match s with [] => [] | _ :: s' => scan r 0 s' end
      end
  end.

(** An element of the list [re.findall] returns: a string when the pattern
    has at most one group, a tuple of all groups otherwise. *)
Inductive fitem : Type :=
| FStr (s : text)
| FTuple (gs : list text).

Definition findall_item (r : re) (m : text * caps) : fitem :=
  match ngroups r with
  | 0 => FStr (fst m)
  | 1 => FStr (group (snd m) 1)
  | n => FTuple (group (snd m) <$> seq 1 n)
  end.

Definition findall (r : re) (s : text) : list fitem :=
  findall_item r <$> scan r 0 s.

(** The language of a pattern, groups ignored. *)
Inductive matches : re → text → Prop :=
| m_eps : matches Eps []
| m_lit c d : Chr.ci_eq c d = true → matches (Lit c) [d]
| m_cls neg items d : class_match neg items d = true → matches (Cls neg items) [d]
| m_cat r1 r2 p1 p2 : matches r1 p1 → matches r2 p2 → matches (Cat r1 r2) (p1 ++ p2)
| m_opt_skip r : matches (Opt r) []
| m_opt_take r p : matches r p → matches (Opt r) p
| m_star_stop r : matches (Star r) []
| m_star_more r p1 p2 : matches r p1 → matches (Star r) p2 → matches (Star r) (p1 ++ p2)
| m_plus r p1 p2 : matches r p1 → matches (Star r) p2 → matches (Plus r) (p1 ++ p2)
| m_rep_0 r : matches (Rep 0 r) []
| m_rep_S n r p1 p2 : matches r p1 → matches (Rep n r) p2 → matches (Rep (S n) r) (p1 ++ p2)
| m_grp r p : matches r p → matches (Grp r) p.

End Matching.

(** Building patterns. *)
Definition lits (t : text) : re := foldr (λ c r, Cat (Lit c) r) Eps t.
Definition cat (rs : list re) : re := foldr Cat Eps rs.
Definition lit (s : string) : re := lits (str s).
Definition chr (s : string) : N := default 0%N (head (str s)).
Definition set (items : list citem) : re := Cls false items.
Definition nset (items : list citem) : re := Cls true items.

End Re.

(** ** Substrings *)

Fixpoint starts_with (p s : text) : bool :=
  match p, s with
  | [], _ => true
  | c :: p', d :: s' => (c =? d)%N && starts_with p' s'
  | _ :: _, [] => false
  end.

(** [p in s] *)
Fixpoint contains (p s : text) : bool :=
  starts_with p s || match s with [] => false | _ :: s' => contains p s' end.

(** ** The link extraction engine *)

Module Extract.
Import Re.

(** [https?://] *)
Definition https : re := cat [lit "http"; Opt (Lit (chr "s")); lit "://"].

(** [[\w\-]+] *)
Definition token : re := Plus (set [CWord; CChar (chr "-")]).

(** [[\w\-/.?&=%]+] *)
Definition url_tail : re :=
  Plus (set [CWord; CChar (chr "-"); CChar (chr "/"); CChar (chr ".");
             CChar (chr "?"); CChar (chr "&"); CChar (chr "="); CChar (chr "%")]).

(** [(https?://<host and path><token>)] *)
Definition share (prefix : string) : re := Grp (cat [https; lit prefix; token]).

(** [(https?://115cdn\.com/s/[\w\-]+(\?password=[\w\-]+)?#?)] *)
Definition p_115cdn : re :=
  Grp (cat [https; lit "115cdn.com/s/"; token;
            Opt (Grp (cat [lit "?password="; token])); Opt (Lit (chr "#"))]).

(** [magnet:\?xt=urn:btih:[a-fA-F0-9]{40}] followed by any number of
    [(&[\w\-\=]+)], the whole in a group. *)
Definition p_magnet : re :=
  Grp (cat [lit "magnet:?xt=urn:btih:";
            Rep 40 (set [CRange (chr "a") (chr "f"); CRange (chr "A") (chr "F");
                         CRange (chr "0") (chr "9")]);
            Star (Grp (cat [lit "&";
                            Plus (set [CWord; CChar (chr "-"); CChar (chr "=")])]))]).

(** [(ed2k://\|file\|[^\|]+\|[0-9]+\|[A-F0-9]{32}\|/)] *)
Definition p_ed2k : re :=
  Grp (cat [lit "ed2k://|file|"; Plus (nset [CChar (chr "|")]); lit "|";
            Plus (set [CRange (chr "0") (chr "9")]); lit "|";
            Rep 32 (set [CRange (chr "A") (chr "F"); CRange (chr "0") (chr "9")]);
            lit "|/"]).

(** [self.link_patterns] *)
Definition link_patterns : list re :=
  [ share "pan.baidu.com/s/";
    share "yun.baidu.com/s/";
    share "www.aliyundrive.com/s/";
    share "aliyundrive.com/s/";
    share "quark.cn/s/";
    share "cloud.189.cn/web/share?code=";
    share "cloud.189.cn/t/";
    share "drive.uc.cn/s/";
    share "cloud.10086.cn/t/";
    share "115.com/lb/?s=";
    p_115cdn;
    Grp (cat [https; lit "api.pikpak.com/drive/v1/files/"; token; lit "/share"]);
    share "pikpak.com/s/";
    share "pan.xunlei.com/s/";
    share "www.123pan.com/s/";
    p_magnet;
    p_ed2k ].

(** [(https?://[\w\-]+\.[\w\-]+/s/[\w\-]+)] *)
Definition p_generic_s : re :=
  Grp (cat [https; token; lit "."; token; lit "/s/"; token]).

(** [s_link_patterns] of [_extract_s_links] *)
Definition s_link_patterns : list re :=
  [ share "pan.baidu.com/s/";
    share "yun.baidu.com/s/";
    share "www.aliyundrive.com/s/";
    share "aliyundrive.com/s/";
    share "quark.cn/s/";
    share "drive.uc.cn/s/";
    p_115cdn;
    share "pikpak.com/s/";
    share "pan.xunlei.com/s/";
    share "www.123pan.com/s/";
    p_generic_s ].

(** [self.cloud_domains], in insertion order.  The names that are not
    ASCII are given by their code points. *)
Definition cloud_domains : list (string * list text) :=
  [ ("baidu",  [str "pan.baidu.com"; str "yun.baidu.com";
                [30334; 24230; 32593; 30424]%N]);
    ("aliyun", [str "aliyundrive.com"; [38463; 37324; 20113; 30424]%N]);
    ("quark",  [str "quark.cn"; [22840; 20811; 32593; 30424]%N]);
    ("tianyi", [str "cloud.189.cn"; [22825; 32764; 20113; 30424]%N]);
    ("uc",     [str "drive.uc.cn"; str "UC" ++ [32593; 30424]%N]);
    ("mobile", [str "cloud.10086.cn"; [31227; 21160; 20113; 30424]%N]);
    ("115",    [str "115.com"; str "115cdn.com"; str "115" ++ [32593; 30424]%N]);
    ("pikpak", [str "pikpak.com"; str "PikPak"]);
    ("xunlei", [str "pan.xunlei.com"; [36805; 38647; 32593; 30424]%N]);
    ("123",    [str "123pan.com"; str "123" ++ [32593; 30424]%N]);
    ("magnet", [str "magnet:?xt="]);
    ("ed2k",   [str "ed2k://"]) ].

(** [(https?://[\w\-]+\.?' + re.escape(d) + r'[\w\-/.?&=%]+)] *)
Definition domain_pattern (d : text) : re :=
  Grp (cat [https; token; Opt (Lit (chr ".")); lits d; url_tail]).

(** [re.sub(r'[^\u4e00-\u9fa5]', '', domain)] *)
Definition cjk_only (domain : text) : text :=
  filter (λ c, Is_true (Chr.in_range 19968 40869 c)) domain.

(** [magnet:\?] and [ed2k://], each followed by one or more characters
    that are neither whitespace nor a single or double quote. *)
Definition unquoted : re := Plus (nset [CSpace; CChar 34; CChar 39]).
Definition magnet_pattern : re := Grp (cat [lit "magnet:?"; unquoted]).
Definition ed2k_pattern : re := Grp (cat [lit "ed2k://"; unquoted]).

Section Engine.
Context `{Unicode}.

(** The body of [for match in matches]: a tuple gives its first non-empty
    group, a string gives itself. *)
Definition add_match (links : gset text) (m : fitem) : gset text :=
  match m with
  | FTuple gs =>
      match find (λ g, negb (Nat.eqb (length g) 0)) gs with
      | Some g => {[g]} ∪ links
      | None => links
      end
  | FStr s => {[s]} ∪ links
  end.

Definition add_pattern (content : text) (links : gset text) (pattern : re)
  : gset text :=
  foldl add_match links (findall pattern content).

Definition _extract_s_links (content : text) : gset text :=
  foldl (add_pattern content) ∅ s_link_patterns.

(** [links.update(matches)] for a pattern with a single group, whose
    [findall] is a list of strings. *)
Definition update (links : gset text) (ms : list fitem) : gset text :=
  foldl (λ acc m, match m with FStr s => {[s]} ∪ acc | FTuple _ => acc end)
        links ms.

(** The body of [for domain in domains]. *)
Definition add_domain (content : text) (links : gset text) (domain : text)
  : gset text :=
  if starts_with (str "magnet:?xt=") domain || starts_with (str "ed2k://") domain
  then links
  else if contains (str "/s/") domain then links
  else if existsb (λ c, (127 <? c)%N) domain then
    if contains domain content
    then update links (findall (domain_pattern (cjk_only domain)) content)
    else links
  else update links (findall (domain_pattern domain) content).

Definition _extract_links (content : text) : gset text :=
  let links := _extract_s_links content in
  let links := foldl (add_pattern content) links link_patterns in
  let links :=
    foldl (λ links kv, foldl (add_domain content) links (snd kv))
          links cloud_domains in
  let links := update links (findall magnet_pattern content) in
  let links := update links (findall ed2k_pattern content) in
  links.

End Engine.
End Extract.

(** ** Text files

    A text file is what the UTF-8 decoder sees: a sequence of characters,
    some positions of which may hold bytes that do not decode. *)

Module File.

Inductive fchar : Type :=
| Ch (c : N)
| Undecodable.

#[global] Instance fchar_eq_dec : EqDecision fchar.
Proof. solve_decision. Defined.

Abbreviation fdata := (list fchar).

Definition is_lf (c : fchar) : bool :=
  match c with Ch c => (c =? 10)%N | Undecodable => false end.
Definition is_cr (c : fchar) : bool :=
  match c with Ch c => (c =? 13)%N | Undecodable => false end.

(** Universal newlines on reading (the default of [open(..., 'r')]):
    [\r\n] and a lone [\r] both read as [\n].  [pending_cr] says that the
    character before was a [\r], already turned into [\n]. *)
Fixpoint translate (pending_cr : bool) (s : fdata) : fdata :=
  match s with
  | [] => []
  | c :: s' =>
      if is_cr c then Ch 10 :: translate true s'
      else if is_lf c && pending_cr then translate false s'
      else c :: translate false s'
  end.

(** The lines [for line in f] yields, each with its terminator; [cur] is
    the line being built, in reverse. *)
Fixpoint split_lines (cur : fdata) (s : fdata) : list fdata :=
  match s with
  | [] => match cur with [] => [] | _ => [rev cur] end
  | c :: s' =>
      if is_lf c then rev (c :: cur) :: split_lines [] s'
      else split_lines (c :: cur) s'
  end.

Definition readlines (s : fdata) : list fdata :=
  split_lines [] (translate false s).

(** A line decodes when every position of it does.  The reader of the
    source decodes ahead in blocks, so that its error can come some lines
    before the one that holds the bytes; here it comes at that line. *)
Fixpoint decode (l : fdata) : option text :=
  match l with
  | [] => Some []
  | Ch c :: l' => cons c <$> decode l'
  | Undecodable :: _ => None
  end.

(** What [f.write(s)] appends. *)
Definition encode (t : text) : fdata := Ch <$> t.

End File.

(** [str.strip()] *)
Fixpoint lstrip (t : text) : text :=
  match t with
  | c :: t' => if Chr.is_space c then lstrip t' else t
  | [] => []
  end.
Definition rstrip (t : text) : text := rev (lstrip (rev t)).
Definition strip (t : text) : text := lstrip (rstrip t).

(** ** Formatting *)

Fixpoint digits (fuel n : nat) (acc : text) : text :=
  match fuel with
  | 0 => acc
  | S f =>
      let acc' := N.of_nat (48 + n mod 10) :: acc in
      if Nat.eqb (n / 10) 0 then acc' else digits f (n / 10) acc'
  end.

(** [str(n)] for a natural number. *)
Definition decimal (n : nat) : text := digits (S n) n [].

(** [%02d] and the like. *)
Definition padded (width n : nat) : text :=
  let d := decimal n in replicate (width - length d) 48%N ++ d.

Record datetime : Type := {
  year : nat; month : nat; day : nat; hour : nat; minute : nat; second : nat
}.

(** [strftime('%Y-%m-%d %H:%M:%S')] *)
Definition timestamp (t : datetime) : text :=
  padded 4 (year t) ++ str "-" ++ padded 2 (month t) ++ str "-"
  ++ padded 2 (day t) ++ str " " ++ padded 2 (hour t) ++ str ":"
  ++ padded 2 (minute t) ++ str ":" ++ padded 2 (second t).

(** ** The crawler *)

Module Crawler.
Import File.

(** The object state that the methods below read and write. *)
Record crawler : Type := {
  rss_feeds : list text;
  crawled_links : gset text;
  failed_feeds : gset text
}.

(** The files the crawler touches: the master link file
    ([self.all_links_file]), the snapshot files by name, and
    [failed_feeds.log].  The three are taken to be different files.
    [None] is a file that does not exist.  Writes are taken to succeed. *)
Record disk : Type := {
  all_links_file : option fdata;
  snapshots : gmap text text;
  failed_log : option text
}.

Inductive console : Type :=
| Loaded (n : nat)          (* the count of links loaded is printed *)
| LoadError.                (* the load error is printed *)

(** The loop of [_load_existing_links]; [false] when a read raised and the
    handler took over. *)
Fixpoint load_lines (ls : list fdata) (crawled : gset text)
  : gset text * bool :=
  match ls with
  | [] => (crawled, true)
  | l :: ls' =>
      match decode l with
      | None => (crawled, false)
      | Some line =>
          load_lines ls'
            (match strip line with
             | [] => crawled
             | _ :: _ => {[strip line]} ∪ crawled
             end)
      end
  end.

Definition _load_existing_links (file : option fdata) (crawled : gset text)
  : gset text * list console :=
  match file with
  | None => (crawled, [])
  | Some s =>
      let r := load_lines (readlines s) crawled in
      (fst r, if snd r then [Loaded (size (fst r))] else [LoadError])
  end.

(** [__init__], for the part that concerns the state. *)
Definition init (feeds : list text) (d : disk) : crawler * list console :=
  let r := _load_existing_links (all_links_file d) ∅ in
  ({| rss_feeds := feeds; crawled_links := fst r; failed_feeds := ∅ |}, snd r).

(** [strftime('%m%d%H%M.txt')] *)
Definition _get_timestamp_filename (now : datetime) : text :=
  padded 2 (month now) ++ padded 2 (day now) ++ padded 2 (hour now)
  ++ padded 2 (minute now) ++ str ".txt".

Definition line (l : text) : text := l ++ [10%N].

(** The text written to the snapshot file. *)
Definition snapshot_text (now : datetime) (new_links : gset text) : text :=
  (str "===== " ++ [29228; 21462; 26102; 38388; 65306]%N ++ timestamp now
     ++ str " =====" ++ [10%N])
  ++ (str "===== " ++ [21457; 29616; 38142; 25509; 25968; 65306]%N
        ++ decimal (size new_links) ++ str " =====" ++ [10; 10]%N)
  ++ concat (line <$> elements new_links).

(** [open(name, 'w')]: the file is created or truncated. *)
Definition write_file (name : text) (s : text) (m : gmap text text)
  : gmap text text := <[name := s]> m.

(** [open(name, 'a')]: the file is created or extended. *)
Definition append {A} (s : list A) (f : option (list A)) : option (list A) :=
  Some (default [] f ++ s).

(** [_save_links]; [now1] and [now2] are the two readings of the clock,
    for the file name and for its header.  A set is iterated in the order
    of [elements]. *)
Definition _save_links (now1 now2 : datetime) (new_links : gset text)
    (w : crawler * disk) : crawler * disk :=
  if decide (new_links = ∅) then w
  else
    let timestamp_filename := _get_timestamp_filename now1 in
    let snaps :=
      write_file timestamp_filename (snapshot_text now2 new_links)
                 (snapshots (snd w)) in
    let master :=
      foldl (λ f link, append (encode (line link)) f)
            (all_links_file (snd w)) (elements new_links) in
    let crawled :=
      foldl (λ s link, {[link]} ∪ s) (crawled_links (fst w))
            (elements new_links) in
    ({| rss_feeds := rss_feeds (fst w);
        crawled_links := crawled;
        failed_feeds := failed_feeds (fst w) |},
     {| all_links_file := master;
        snapshots := snaps;
        failed_log := failed_log (snd w) |}).

(** *** Fetching one feed *)

Record entry : Type := {
  title : option text;
  summary : option text;
  content : option (list text)       (* the [value] of each content block *)
}.

(** What one attempt meets. *)
Inductive attempt_outcome : Type :=
| Raises (msg : text)       (* an exception in the [try] body; [str(e)] *)
| Bozo (msg : text)         (* [feed.bozo] set; [str(feed.bozo_exception)] *)
| Parsed (entries : list entry)
| HandlerFails (msg : text). (* an exception in the [try] body whose handler
                                raises in turn: it leaves the method *)

Inductive sleep : Type :=
| Uniform (lo hi : nat)     (* [time.sleep(random.uniform(lo, hi))] *)
| Secs (n : nat).           (* [time.sleep(n)] *)

Inductive outcome (A : Type) : Type :=
| Return (a : A)
| Raise (msg : text).
Arguments Return {A} a.
Arguments Raise {A} msg.

Record crawl_result : Type := {
  result : outcome (gset text);
  failed_after : gset text;
  slept : list sleep
}.

Definition remote_closed : text :=
  str "Remote end closed connection without response".

Definition entry_text (e : entry) : text :=
  match title e with Some t => line t | None => [] end
  ++ match summary e with Some t => line t | None => [] end
  ++ match content e with Some cs => concat (line <$> cs) | None => [] end.

Section Fetch.
Context `{Unicode}.

(** The body of [for entry in feed.entries]. *)
Definition scan_entry (crawled : gset text) (new_links : gset text) (e : entry)
  : gset text :=
  foldl (λ acc link, if decide (link ∈ crawled) then acc else {[link]} ∪ acc)
        new_links (elements (Extract._extract_links (entry_text e))).

(** What follows a failed attempt in both branches: the cool-down, the
    increment, and the wait before the next attempt if there is one. *)
Definition after_failure (retry_count : nat) (msg : text) (attempt : nat)
  : list sleep :=
  (if contains remote_closed msg then [Secs 5] else [])
  ++ (if Nat.ltb (S attempt) retry_count then [Secs (2 * S attempt)] else []).

Section Feed.
Variable crawled : gset text.          (* [self.crawled_links] *)
Variable fetch : nat → attempt_outcome. (* what attempt number n meets *)
Variable feed_url : text.
Variable retry_count : nat.

(** The [while attempt < retry_count] loop.  [fuel] bounds the number of
    iterations; [retry_count] is enough. *)
Fixpoint attempts (fuel attempt : nat) (new_links failed : gset text)
    (tr : list sleep) : crawl_result :=
  match fuel with
  | 0 => {| result := Return new_links; failed_after := failed; slept := tr |}
  | S fuel' =>
      if Nat.ltb attempt retry_count then
        let tr := tr ++ [Uniform 1 3] in
        match fetch attempt with
        | HandlerFails msg =>
            {| result := Raise msg; failed_after := failed; slept := tr |}
        | Bozo msg =>
            attempts fuel' (S attempt) new_links failed
                     (tr ++ after_failure retry_count msg attempt)
        | Parsed entries =>
            {| result := Return (foldl (scan_entry crawled) new_links entries);
               failed_after := failed ∖ {[feed_url]};
               slept := tr |}
        | Raises msg =>
            attempts fuel' (S attempt) new_links
                     (if Nat.ltb (S attempt) retry_count then failed
                      else {[feed_url]} ∪ failed)
                     (tr ++ after_failure retry_count msg attempt)
        end
      else {| result := Return new_links; failed_after := failed; slept := tr |}
  end.

Definition _crawl_single_feed (failed : gset text) : crawl_result :=
  attempts retry_count 0 ∅ failed [].

End Feed.

(** [crawl_rss_feed]: the default [retry_count] of 3. *)
Definition crawl_rss_feed (crawled : gset text) (fetch : nat → attempt_outcome)
    (feed_url : text) (failed : gset text) : crawl_result :=
  _crawl_single_feed crawled fetch feed_url 3 failed.

(** *** One cycle of [run] *)

(** What a cycle meets: the outcome of every attempt on every feed, the
    order in which the tasks complete, and the readings of the clock. *)
Record cycle_env : Type := {
  fetches : text → nat → attempt_outcome;
  completion : list text;
  now_name : datetime;
  now_header : datetime;
  now_log : datetime
}.

(** [min(self.concurrent_requests, 3)] *)
Definition concurrent_workers (concurrent_requests : nat) : nat :=
  Nat.min concurrent_requests 3.

(** The body of [for future in as_completed(...)], preceded by the task it
    waits for.  The tasks are taken one after another in completion order:
    a task touches [failed_feeds] only for its own feed. *)
Definition merge (crawled : gset text) (fetches : text → nat → attempt_outcome)
    (acc : gset text * gset text) (feed_url : text) : gset text * gset text :=
  let r := crawl_rss_feed crawled (fetches feed_url) feed_url (snd acc) in
  match result r with
  | Return new_links => (fst acc ∪ new_links, failed_after r)
  | Raise _ => (fst acc, {[feed_url]} ∪ failed_after r)
  end.

(** The section appended to [failed_feeds.log]. *)
Definition failure_section (now : datetime) (failed : gset text) : text :=
  ([10%N] ++ str "========== " ++ [29228; 21462; 26102; 38388; 65306]%N
     ++ timestamp now ++ str " ==========" ++ [10%N])
  ++ ([26412; 27425; 22833; 36133; 35746; 38405; 28304; 25968; 37327; 65306]%N
        ++ decimal (size failed) ++ [10%N])
  ++ concat (line <$> elements failed).

(** One iteration of [while True] in [run]; also gives [all_new_links]. *)
Definition run_cycle (env : cycle_env) (w : crawler * disk)
  : crawler * disk * gset text :=
  let acc :=
    foldl (merge (crawled_links (fst w)) (fetches env))
          (∅, failed_feeds (fst w)) (completion env) in
  let all_new_links := fst acc in
  let w1 :=
    _save_links (now_name env) (now_header env) all_new_links
      ({| rss_feeds := rss_feeds (fst w);
          crawled_links := crawled_links (fst w);
          failed_feeds := snd acc |}, snd w) in
  let d2 :=
    if decide (failed_feeds (fst w1) = ∅) then snd w1
    else {| all_links_file := all_links_file (snd w1);
            snapshots := snapshots (snd w1);
            failed_log :=
              append (failure_section (now_log env) (failed_feeds (fst w1)))
                     (failed_log (snd w1)) |} in
  (fst w1, d2, all_new_links).

(** [run(continuous=True)] for as many cycles as [envs] describes;
    [run(continuous=False)] is the case of one. *)
Definition run (envs : list cycle_env) (w : crawler * disk) : crawler * disk :=
  foldl (λ w env, fst (run_cycle env w)) w envs.

End Fetch.
End Crawler.

(** ** The grammars of the extraction engine *)

Module Grammar.
Import Re Extract.

(** A lower bound on the length of what a pattern matches. *)
Fixpoint min_len (r : re) : nat :=
  match r with
  | Eps => 0
  | Lit _ | Cls _ _ => 1
  | Cat r1 r2 => min_len r1 + min_len r2
  | Opt _ | Star _ => 0
  | Plus r => min_len r
  | Rep n r => n * min_len r
  | Grp r => min_len r
  end.

(** The shape of every pattern of the source: one group around the whole
    pattern, which cannot match the empty string. *)
Definition whole_group (r : re) : bool :=
  match r with
  | Grp r0 => Nat.ltb 0 (min_len r0)
  | _ => false
  end.

(** The domains for which [_extract_links] builds a pattern, and the
    pattern it builds. *)
Definition fallback_domains : list text :=
  filter (λ d, Is_true
            (negb (starts_with (str "magnet:?xt=") d || starts_with (str "ed2k://") d)
             && negb (contains (str "/s/") d)))
         (flat_map snd cloud_domains).

Definition fallback_pattern (d : text) : re :=
  if existsb (λ c, (127 <? c)%N) d then domain_pattern (cjk_only d)
  else domain_pattern d.

(** Every link grammar the engine defines: the [/s/] patterns with the
    generic one, the pattern catalog, the domain fall-backs and the two
    wide protocol patterns. *)
Definition grammars : list re :=
  s_link_patterns ++ link_patterns ++ (fallback_pattern <$> fallback_domains)
  ++ [magnet_pattern; ed2k_pattern].

Section Language.
Context `{Unicode}.

(** A step of the matcher that only reports ends it can justify. *)
Definition sound_step (step : text → list (text * caps)) (r : re) : Prop :=
  ∀ s e, e ∈ step s → ∃ p, s = p ++ fst e ∧ matches r p.

(** Every member matches one of the grammars. *)
Definition recognised (links : gset text) : Prop :=
  ∀ l, l ∈ links → ∃ g, g ∈ grammars ∧ matches g l.

Definition usable (r : re) : Prop := whole_group r = true ∧ r ∈ grammars.

End Language.
End Grammar.

(** ** What a fetch and a cycle amount to

    The terms in which the specification speaks of a fetch: it succeeds,
    it exhausts its attempts, or an exception leaves it. *)

Module Verdict.
Import Crawler.

Inductive verdict : Type :=
| Succeeded (entries : list entry)   (* an attempt within the budget parsed *)
| Exhausted (raised_last : bool)     (* every attempt failed; whether the
                                        last failure was an exception *)
| Escaped (msg : text).              (* an exception left the method *)

(** The verdict on [k] attempts, starting with attempt number [attempt]. *)
Fixpoint verdict_from (fetch : nat → attempt_outcome) (k attempt : nat)
  : verdict :=
  match k with
  | 0 => Exhausted false
  | S k' =>
      match fetch attempt with
      | Parsed es => Succeeded es
      | HandlerFails msg => Escaped msg
      | Raises _ =>
          match k' with
          | 0 => Exhausted true
          | S _ => verdict_from fetch k' (S attempt)
          end
      | Bozo _ =>
          match k' with
          | 0 => Exhausted false
          | S _ => verdict_from fetch k' (S attempt)
          end
      end
  end.

Definition verdict_of (fetch : nat → attempt_outcome) (retry_count : nat)
  : verdict := verdict_from fetch retry_count 0.

(** The entries a fetch of three attempts gets to read. *)
Definition served (fetch : nat → attempt_outcome) : list entry :=
  match verdict_of fetch 3 with
  | Succeeded es => es
  | _ => []
  end.

Section Found.
Context `{Unicode}.

(** The distinct links in a list of entries. *)
Definition links_in (es : list entry) : gset text :=
  ⋃ ((λ e, Extract._extract_links (entry_text e)) <$> es).

(** The distinct links a cycle finds in the feeds it reads. *)
Definition cycle_found (env : cycle_env) : gset text :=
  ⋃ ((λ f, links_in (served (fetches env f))) <$> completion env).

End Found.

(** What the task and the merge loop together do to the membership of a
    feed in [failed_feeds]. *)
Definition marked (v : verdict) (feed_url : text) (failed : gset text)
  : gset text :=
  match v with
  | Succeeded _ => failed ∖ {[feed_url]}
  | Exhausted true | Escaped _ => {[feed_url]} ∪ failed
  | Exhausted false => failed
  end.

(** The delay schedule as the specification words it: a jittered sleep of
    1 to 3 before every attempt; after failed attempt number [n], counted
    from 1, the cool-down of 5 if the message carries the signature, then
    a back-off of [2 * n] unless [n] was the final attempt. *)
Fixpoint schedule (fetch : nat → attempt_outcome) (retry_count : nat)
    (k n : nat) : list sleep :=
  match k with
  | 0 => []
  | S k' =>
      Uniform 1 3 ::
      match fetch (pred n) with
      | Parsed _ | HandlerFails _ => []
      | Raises msg | Bozo msg =>
          (if contains remote_closed msg then [Secs 5] else [])
          ++ (if decide (n = retry_count) then [] else [Secs (2 * n)])
          ++ schedule fetch retry_count k' (S n)
      end
  end.



End Verdict.

(** ** What the link store holds *)

Module Stored.
Import File Crawler.

(** The links a reload finds in the master file. *)
Definition stored (f : option fdata) : gset text :=
  fst (_load_existing_links f ∅).

(** A link that survives a line of a text file: not empty, no line break
    inside, no white space at either end. *)
Definition storable (l : text) : Prop :=
  l ≠ [] ∧ strip l = l ∧ Forall (λ c, c ≠ 10%N ∧ c ≠ 13%N) l.

(** A master file a reload reads to its end, line by line: every position
    decodes, and the last line (if any) is terminated. *)
Definition whole_lines (f : option fdata) : Prop :=
  match f with
  | None => True
  | Some s =>
      Forall (λ c, c ≠ Undecodable) s
      ∧ (s = [] ∨ ∃ s', s = s' ++ [Ch 10])
  end.

(** What [_save_links] appends to the master file for a set of links. *)
Definition written (links : gset text) : fdata :=
  concat ((λ l, encode (line l)) <$> elements links).

End Stored.

(** ** Worked inputs *)

Module Sample.
Import File Crawler.

Definition noon : datetime :=
  {| year := 2025; month := 9; day := 3; hour := 12; minute := 0; second := 7 |}.
Definition noon_later : datetime :=
  {| year := 2025; month := 9; day := 3; hour := 12; minute := 0; second := 41 |}.

Definition no_files : disk :=
  {| all_links_file := None; snapshots := ∅; failed_log := None |}.

Definition feed_a : text := str "http://a.example/rss".
Definition feed_b : text := str "http://b.example/rss".
Definition feed_c : text := str "http://c.example/rss".
Definition feed_d : text := str "http://d.example/rss".

Definition titled (t : string) : entry :=
  {| title := Some (str t); summary := None; content := None |}.

Definition cycle (fs : text → nat → attempt_outcome) (feeds : list text)
    (t : datetime) : cycle_env :=
  {| fetches := fs; completion := feeds;
     now_name := t; now_header := t; now_log := t |}.

(** Every attempt on every feed raises. *)
Definition all_raise : text → nat → attempt_outcome :=
  λ _ _, Raises (str "timed out").

(** The attempts on one feed, all of which raise. *)
Definition always_raises : nat → attempt_outcome :=
  λ _, Raises (str "timed out").


(** Every feed parses at once and carries one other link. *)
Definition other_link : text → nat → attempt_outcome :=
  λ _ _, Parsed [titled "https://quark.cn/s/second"].

(** Every feed parses at once and carries one share link. *)
Definition one_link : text → nat → attempt_outcome :=
  λ _ _, Parsed [titled "share: https://pan.baidu.com/s/1abcXYZ more text"].

(** Five feeds: [a] parses, [b] fails twice and parses, the handler of [c]
    raises, [d] raises three times, [e] parses. *)
Definition five : text → nat → attempt_outcome :=
  λ f n,
    if decide (f = feed_a) then Parsed [titled "https://quark.cn/s/aaa"]
    else if decide (f = feed_b) then
      match n with
      | 0 => Raises (str "Remote end closed connection without response")
      | 1 => Bozo (str "syntax error")
      | _ => Parsed [titled "https://quark.cn/s/bbb"]
      end
    else if decide (f = feed_c) then HandlerFails (str "stdout is closed")
    else if decide (f = feed_d) then Raises (str "timed out")
    else Parsed [titled "https://quark.cn/s/eee"].

(** One entry whose title and summary are the two halves of an ed2k
    link. *)
Definition halves : entry :=
  {| title := Some (str "ed2k://|file|a");
     summary := Some (str "b|1|0123456789ABCDEF0123456789ABCDEF|/");
     content := None |}.

Definition whole_ed2k : text :=
  str "ed2k://|file|a" ++ [10%N] ++ str "b|1|0123456789ABCDEF0123456789ABCDEF|/".

(** A master file of three lines, the second of which does not decode. *)
Definition damaged : fdata :=
  encode (line (str "https://quark.cn/s/one"))
  ++ [Undecodable; Ch 10]
  ++ encode (line (str "https://quark.cn/s/three")).

Definition with_master (s : fdata) : disk :=
  {| all_links_file := Some s; snapshots := ∅; failed_log := None |}.

(** A crawler just built, with no file on disk. *)
Definition fresh (feeds : list text) : crawler * disk :=
  (fst (init feeds no_files), no_files).

End Sample.

(** ** The shape of what the patterns match *)

Module Shape.
Import Re.

(** Every text the pattern matches holds the character [c]; meant for a
    character without case. *)
Fixpoint demands (c : N) (r : re) : bool :=
  match r with
  | Lit c' => (c' =? c)%N
  | Cat r1 r2 => demands c r1 || demands c r2
  | Plus r | Grp r => demands c r
  | Rep (S _) r => demands c r
  | _ => false
  end.

Definition item_spaceless (i : citem) : bool :=
  match i with
  | CChar c => negb (Chr.is_space (Chr.fold_case c))
  | CRange lo hi => forallb (λ sp, negb (Chr.in_range lo hi sp)) Chr.spaces
  | CWord => true
  | CSpace => false
  end.

Definition is_CSpace (i : citem) : bool :=
  match i with CSpace => true | _ => false end.

(** No text the pattern matches holds white space, as long as no word
    character is white space. *)
Fixpoint spaceless (r : re) : bool :=
  match r with
  | Eps => true
  | Lit c => negb (Chr.is_space (Chr.fold_case c))
  | Cls false items => forallb item_spaceless items
  | Cls true items => existsb is_CSpace items
  | Cat r1 r2 => spaceless r1 && spaceless r2
  | Opt r | Star r | Plus r | Rep _ r | Grp r => spaceless r
  end.

(** [l] is a stretch of [content]. *)
Definition within (l content : text) : Prop :=
  ∃ pre post, content = pre ++ l ++ post.

(** Every member is a stretch of the text that one of the grammars
    matches, and is not empty. *)
Definition traced `{Unicode} (content : text) (links : gset text) : Prop :=
  ∀ l, l ∈ links →
    ∃ g, g ∈ Grammar.grammars ∧ matches g l ∧ within l content ∧ l ≠ [].

(** [e] is the end the matcher reports first for [r] at [s]. *)
Definition leads `{Unicode} (r : re) (base : nat) (s : text)
    (e : text * caps) : Prop :=
  ∃ rest, ends r base s = e :: rest.

(** A character of a token: a word character or a hyphen. *)
Definition token_char `{Unicode} (c : N) : bool :=
  Chr.is_word c || (c =? 45)%N.

(** [http://] or [https://] *)
Definition scheme (secure : bool) : text :=
  if secure then str "https://" else str "http://".

End Shape.

(** ** Measures of a fetch *)

Module Trace.
Import Crawler.

(** The attempts made: one jittered sleep goes before each. *)
Fixpoint jitters (tr : list sleep) : nat :=
  match tr with
  | [] => 0
  | Uniform _ _ :: tr' => S (jitters tr')
  | Secs _ :: tr' => jitters tr'
  end.

(** The seconds slept for a fixed time. *)
Fixpoint fixed_sleep (tr : list sleep) : nat :=
  match tr with
  | [] => 0
  | Uniform _ _ :: tr' => fixed_sleep tr'
  | Secs n :: tr' => n + fixed_sleep tr'
  end.


(** A reading of the clock with month, day, hour and minute in their
    ranges. *)
Definition on_calendar (t : datetime) : Prop :=
  month t ≤ 12 ∧ day t ≤ 31 ∧ hour t < 24 ∧ minute t < 60.

End Trace.

(** * Properties *)

(** ** The matcher is sound for the language of its pattern *)

Section MatcherFacts.
Context `{Unicode}.
Import Re Grammar.

Lemma elem_of_and_then e l k :
  e ∈ and_then l k ↔
  ∃ e1 e2, e1 ∈ l ∧ e2 ∈ k (fst e1) ∧ e = (fst e2, snd e2 ++ snd e1).
Proof.
  unfold and_then. rewrite list_elem_of_In, in_flat_map. split.
  - intros (e1 & H1 & H2). apply list_elem_of_In, list_elem_of_fmap in H2.
    destruct H2 as (e2 & -> & H2). exists e1, e2.
    by rewrite list_elem_of_In.
  - intros (e1 & e2 & H1 & H2 & ->). exists e1. split.
    + by apply list_elem_of_In.
    + apply list_elem_of_In, list_elem_of_fmap. by exists e2.
Qed.

Lemma consumed_app (p s' : text) : consumed (p ++ s') s' = p.
Proof.
  unfold consumed. rewrite length_app.
  replace (length p + length s' - length s') with (length p) by lia.
  by rewrite take_app_length.
Qed.

Lemma iter_star_sound step r :
  sound_step step r →
  ∀ fuel, sound_step (iter_star step fuel) (Star r).
Proof.
  intros Hstep fuel. induction fuel as [|fuel IH]; intros s e He; simpl in He.
  - apply list_elem_of_singleton in He as ->. exists []. split; [done | constructor].
  - apply elem_of_app in He as [He | He].
    + apply list_elem_of_In, in_flat_map in He. destruct He as (e1 & H1 & H2).
      apply list_elem_of_In in H1. destruct (Nat.ltb _ _); [| by destruct H2].
      apply list_elem_of_In, list_elem_of_fmap in H2.
      destruct H2 as (e2 & -> & H2).
      destruct (Hstep _ _ H1) as (p1 & Hs1 & Hm1).
      destruct (IH _ _ H2) as (p2 & Hs2 & Hm2).
      exists (p1 ++ p2). simpl. split.
      * rewrite Hs1 at 1. rewrite Hs2 at 1. by rewrite app_assoc.
      * by constructor.
    + apply list_elem_of_singleton in He as ->. exists []. split; [done | constructor].
Qed.

(** The bound on the rounds of a repetition is never what ends it: every
    round shortens the text, so its length is enough. *)
Lemma iter_star_fuel step : ∀ fuel s,
  length s ≤ fuel → iter_star step (S fuel) s = iter_star step fuel s.
Proof.
  induction fuel as [|fuel IH]; intros s Hs.
  - destruct s; [| simpl in Hs; lia]. simpl.
    replace (flat_map _ (step [])) with (@nil (text * caps)); [done |].
    induction (step []) as [|e l IHl]; [done |]. simpl. by rewrite <- IHl.
  - change (iter_star step (S (S fuel)) s)
      with (flat_map (λ e1,
              if Nat.ltb (length (fst e1)) (length s)
              then (λ e2, (fst e2, snd e2 ++ snd e1))
                     <$> iter_star step (S fuel) (fst e1)
              else []) (step s) ++ [(s, [])]).
    change (iter_star step (S fuel) s)
      with (flat_map (λ e1,
              if Nat.ltb (length (fst e1)) (length s)
              then (λ e2, (fst e2, snd e2 ++ snd e1))
                     <$> iter_star step fuel (fst e1)
              else []) (step s) ++ [(s, [])]).
    f_equal. apply flat_map_ext. intros e1.
    destruct (Nat.ltb (length (fst e1)) (length s)) eqn:E; [| done].
    apply Nat.ltb_lt in E. rewrite IH by lia. done.
Qed.

Lemma iter_rep_sound step r :
  sound_step step r →
  ∀ n, sound_step (iter_rep step n) (Rep n r).
Proof.
  intros Hstep n. induction n as [|n IH]; intros s e He; simpl in He.
  - apply list_elem_of_singleton in He as ->. exists []. split; [done | constructor].
  - apply elem_of_and_then in He. destruct He as (e1 & e2 & H1 & H2 & ->).
    destruct (Hstep _ _ H1) as (p1 & Hs1 & Hm1).
    destruct (IH _ _ H2) as (p2 & Hs2 & Hm2).
    exists (p1 ++ p2). simpl. split.
    + rewrite Hs1 at 1. rewrite Hs2 at 1. by rewrite app_assoc.
    + by constructor.
Qed.

Lemma ends_sound r : ∀ base, sound_step (ends r base) r.
Proof.
  induction r as [|c|neg items|r1 IH1 r2 IH2|r IH|r IH|r IH|n r IH|r IH];
    intros base s e He; simpl in He.
  - apply list_elem_of_singleton in He as ->. exists []. split; [done | constructor].
  - destruct s as [|d s']; [by apply elem_of_nil in He |].
    destruct (Chr.ci_eq c d) eqn:E; [| by apply elem_of_nil in He].
    apply list_elem_of_singleton in He as ->. exists [d]. split; [done | by constructor].
  - destruct s as [|d s']; [by apply elem_of_nil in He |].
    destruct (class_match neg items d) eqn:E; [| by apply elem_of_nil in He].
    apply list_elem_of_singleton in He as ->. exists [d]. split; [done | by constructor].
  - apply elem_of_and_then in He. destruct He as (e1 & e2 & H1 & H2 & ->).
    destruct (IH1 _ _ _ H1) as (p1 & Hs1 & Hm1).
    destruct (IH2 _ _ _ H2) as (p2 & Hs2 & Hm2).
    exists (p1 ++ p2). simpl. split.
    + rewrite Hs1 at 1. rewrite Hs2 at 1. by rewrite app_assoc.
    + by constructor.
  - apply elem_of_app in He as [He | He].
    + destruct (IH _ _ _ He) as (p & Hs & Hm). exists p. split; [done | by constructor].
    + apply list_elem_of_singleton in He as ->. exists []. split; [done | constructor].
  - eapply iter_star_sound; [apply IH | apply He].
  - apply elem_of_and_then in He. destruct He as (e1 & e2 & H1 & H2 & ->).
    destruct (IH _ _ _ H1) as (p1 & Hs1 & Hm1).
    destruct (iter_star_sound _ _ (IH base) _ _ _ H2) as (p2 & Hs2 & Hm2).
    exists (p1 ++ p2). simpl. split.
    + rewrite Hs1 at 1. rewrite Hs2 at 1. by rewrite app_assoc.
    + by constructor.
  - eapply iter_rep_sound; [apply IH | apply He].
  - apply list_elem_of_fmap in He. destruct He as (e0 & -> & He).
    destruct (IH _ _ _ He) as (p & Hs & Hm). exists p. split; [done | by constructor].
Qed.

Lemma matches_min_len r p : matches r p → Grammar.min_len r ≤ length p.
Proof.
  induction 1; simpl in *; rewrite ?length_app; lia.
Qed.

(** Every match the scan reports is an end the matcher found somewhere. *)
Lemma scan_ends r : ∀ s skip m,
  m ∈ scan r skip s →
  ∃ s0 e, e ∈ ends r 0 s0 ∧ m = (consumed s0 (fst e), snd e).
Proof.
  induction s as [|d s IH]; intros skip m Hm; simpl in Hm.
  - destruct skip; [| by apply elem_of_nil in Hm].
    destruct (ends r 0 []) as [|e l] eqn:E; [by apply elem_of_nil in Hm |].
    apply list_elem_of_singleton in Hm as ->. exists [], e. split; [| done].
    rewrite E. apply list_elem_of_here.
  - destruct skip; [| by eapply IH].
    destruct (ends r 0 (d :: s)) as [|e l] eqn:E; [by eapply IH |].
    apply elem_of_cons in Hm as [-> | Hm]; [| by eapply IH].
    exists (d :: s), e. split; [| done]. rewrite E. apply list_elem_of_here.
Qed.

(** In a pattern of the shape [(r0)], group 1 is the whole match, the
    match is in the language of the pattern, and it is not empty. *)
Lemma scan_whole_group r s m :
  Grammar.whole_group r = true →
  m ∈ scan r 0 s →
  group (snd m) 1 = fst m ∧ matches r (fst m) ∧ fst m ≠ [].
Proof.
  intros Hr Hm. destruct r as [| | | | | | | |r0]; try discriminate.
  simpl in Hr. apply Nat.ltb_lt in Hr.
  destruct (scan_ends _ _ _ _ Hm) as (s0 & e & He & ->).
  destruct (ends_sound _ _ _ _ He) as (p & Hs & Hp).
  simpl in He. apply list_elem_of_fmap in He. destruct He as (e0 & -> & _).
  simpl in *.
  assert (consumed s0 (fst e0) = p) as Hc.
  { rewrite Hs at 1. apply consumed_app. }
  rewrite Hc. split; [done | split; [done |]].
  apply matches_min_len in Hp. simpl in Hp. destruct p; simpl in *; [lia | done].
Qed.

(** What [findall] hands to the loops of the source, for such a pattern. *)
Lemma findall_whole_group r s i :
  Grammar.whole_group r = true →
  i ∈ findall r s →
  ∃ m, matches r m ∧ m ≠ [] ∧ (i = FStr m ∨ ∃ gs, i = FTuple (m :: gs)).
Proof.
  intros Hr Hi. apply list_elem_of_fmap in Hi. destruct Hi as (mc & -> & Hm).
  destruct (scan_whole_group _ _ _ Hr Hm) as (Hg & Hp & Hne).
  exists (fst mc). split; [done | split; [done |]].
  unfold findall_item. destruct r; try discriminate. simpl ngroups.
  destruct (ngroups r) as [|k]; [left; by rewrite Hg |].
  right. exists (group (snd mc) <$> seq 2 (S k)). simpl. by rewrite Hg.
Qed.

End MatcherFacts.

(** ** The extraction engine *)

Section ExtractFacts.
Context `{Unicode}.
Import Re Extract Grammar.

Lemma recognised_add r m links :
  r ∈ grammars → matches r m → recognised links → recognised ({[m]} ∪ links).
Proof.
  intros Hr Hm Hl l [->%elem_of_singleton | Hin]%elem_of_union; [| by apply Hl].
  by exists r.
Qed.

Lemma add_match_recognised r s i links :
  usable r → i ∈ findall r s → recognised links →
  recognised (add_match links i).
Proof.
  intros [Hw Hg] Hi Hl.
  destruct (findall_whole_group _ _ _ Hw Hi) as (m & Hm & Hne & [-> | [gs ->]]);
    simpl.
  - by eapply recognised_add.
  - destruct m as [|c m]; [done |]. simpl. by eapply recognised_add.
Qed.

Lemma foldl_add_match_recognised r s : ∀ items links,
  usable r → (∀ i, i ∈ items → i ∈ findall r s) → recognised links →
  recognised (foldl add_match links items).
Proof.
  induction items as [|i items IH]; intros links Hr Hsub Hl; simpl; [done |].
  apply IH; [done | |].
  - intros j Hj. apply Hsub. by right.
  - eapply add_match_recognised; [done | | done]. apply Hsub. by left.
Qed.

Lemma add_pattern_recognised content r links :
  usable r → recognised links → recognised (add_pattern content links r).
Proof. intros. by eapply foldl_add_match_recognised. Qed.

Lemma foldl_add_pattern_recognised content : ∀ pats links,
  (∀ r, r ∈ pats → usable r) → recognised links →
  recognised (foldl (add_pattern content) links pats).
Proof.
  induction pats as [|r pats IH]; intros links Hp Hl; simpl; [done |].
  apply IH.
  - intros r' Hr'. apply Hp. by right.
  - apply add_pattern_recognised; [| done]. apply Hp. by left.
Qed.

Lemma update_recognised r s : ∀ items links,
  usable r → (∀ i, i ∈ items → i ∈ findall r s) → recognised links →
  recognised (update links items).
Proof.
  unfold update.
  induction items as [|i items IH]; intros links Hr Hsub Hl; simpl; [done |].
  apply IH; [done | |].
  - intros j Hj. apply Hsub. by right.
  - destruct Hr as [Hw Hg].
    destruct (findall_whole_group r s i Hw) as (m & Hm & _ & [-> | [gs ->]]).
    + apply Hsub. by left.
    + by eapply recognised_add.
    + done.
Qed.

Lemma whole_group_domain_pattern d : whole_group (domain_pattern d) = true.
Proof. reflexivity. Qed.

Lemma usable_s_link_patterns r : r ∈ s_link_patterns → usable r.
Proof.
  intros Hr. split.
  - revert r Hr. apply Forall_forall. repeat constructor.
  - unfold grammars. apply elem_of_app. by left.
Qed.

Lemma usable_link_patterns r : r ∈ link_patterns → usable r.
Proof.
  intros Hr. split.
  - revert r Hr. apply Forall_forall. repeat constructor.
  - unfold grammars. apply elem_of_app. right. apply elem_of_app. by left.
Qed.

Lemma usable_fallback d : d ∈ fallback_domains → usable (fallback_pattern d).
Proof.
  intros Hd. split.
  - unfold fallback_pattern. destruct (existsb _ d); apply whole_group_domain_pattern.
  - unfold grammars. apply elem_of_app. right. apply elem_of_app. right.
    apply elem_of_app. left. by apply list_elem_of_fmap_2.
Qed.

Lemma usable_protocol r : r ∈ [magnet_pattern; ed2k_pattern] → usable r.
Proof.
  intros Hr. split.
  - revert r Hr. apply Forall_forall. repeat constructor.
  - unfold grammars. do 3 (apply elem_of_app; right). done.
Qed.

Lemma add_domain_recognised content links d :
  d ∈ flat_map snd cloud_domains → recognised links →
  recognised (add_domain content links d).
Proof.
  intros Hd Hl. unfold add_domain.
  destruct (starts_with (str "magnet:?xt=") d || starts_with (str "ed2k://") d)
    eqn:E1; [done |].
  destruct (contains (str "/s/") d) eqn:E2; [done |].
  assert (d ∈ fallback_domains) as Hf.
  { unfold fallback_domains. apply list_elem_of_filter. split; [| done].
    rewrite E1, E2. done. }
  pose proof (usable_fallback _ Hf) as Hu. unfold fallback_pattern in Hu.
  destruct (existsb _ d).
  - destruct (contains d content); [| done]. by eapply update_recognised.
  - by eapply update_recognised.
Qed.

Lemma foldl_add_domain_recognised content : ∀ ds links,
  (∀ d, d ∈ ds → d ∈ flat_map snd cloud_domains) → recognised links →
  recognised (foldl (add_domain content) links ds).
Proof.
  induction ds as [|d ds IH]; intros links Hd Hl; simpl; [done |].
  apply IH.
  - intros d' Hd'. apply Hd. by right.
  - apply add_domain_recognised; [| done]. apply Hd. by left.
Qed.

Lemma foldl_domains_recognised content : ∀ kvs links,
  (∀ kv, kv ∈ kvs → kv ∈ cloud_domains) → recognised links →
  recognised (foldl (λ links kv, foldl (add_domain content) links (snd kv))
                    links kvs).
Proof.
  induction kvs as [|kv kvs IH]; intros links Hk Hl; simpl; [done |].
  apply IH.
  - intros kv' Hkv'. apply Hk. by right.
  - apply foldl_add_domain_recognised; [| done].
    intros d Hd. apply list_elem_of_In, in_flat_map. exists kv. split.
    + apply list_elem_of_In, Hk. by left.
    + by apply list_elem_of_In.
Qed.

Lemma _extract_links_recognised content : recognised (_extract_links content).
Proof.
  unfold _extract_links, _extract_s_links.
  eapply update_recognised; [apply usable_protocol | done |].
  { right. by left. }
  eapply update_recognised; [apply usable_protocol | done |].
  { by left. }
  apply foldl_domains_recognised; [done |].
  apply foldl_add_pattern_recognised; [apply usable_link_patterns |].
  apply foldl_add_pattern_recognised; [apply usable_s_link_patterns |].
  intros l Hl. by apply not_elem_of_empty in Hl.
Qed.

(** C6: on the text [share: https://pan.baidu.com/s/1abcXYZ more text] the
    engine, all four passes done, returns the set whose only member is
    [https://pan.baidu.com/s/1abcXYZ]. *)
Theorem extract_baidu_share :
  _extract_links (str "share: https://pan.baidu.com/s/1abcXYZ more text")
  = {[ str "https://pan.baidu.com/s/1abcXYZ" ]}.
Proof. vm_compute. reflexivity. Qed.

(** The magnet link of the specification comes back whole. *)
Example extract_magnet :
  _extract_links
    (str "magnet:?xt=urn:btih:0123456789abcdef0123456789abcdef01234567&dn=x")
  = {[ str "magnet:?xt=urn:btih:0123456789abcdef0123456789abcdef01234567&dn=x" ]}.
Proof. vm_compute. reflexivity. Qed.

(** A host outside the catalog is caught by the generic [/s/] pattern, a
    catalog host under a sub-domain by the domain fall-back. *)
Example extract_fallbacks :
  _extract_links
    (str "a https://foo.bar/s/tok b https://www.pan.baidu.com/x/y?e=1 c")
  = {[ str "https://foo.bar/s/tok"; str "https://www.pan.baidu.com/x/y?e=1" ]}.
Proof. vm_compute. reflexivity. Qed.

(** C7: for every text the engine returns a set, in which no string occurs
    twice, and every member of it is in the language of one of the grammars
    the engine defines (the [/s/] patterns and the generic one, the pattern
    catalog, the domain fall-backs, the wide magnet and ed2k patterns).  The
    engine is a total function: no input makes it fail. *)
Theorem extract_total_set_of_matches (content : text) :
  ∃ links : gset text,
    _extract_links content = links
    ∧ NoDup (elements links)
    ∧ ∀ l, l ∈ links → ∃ g, g ∈ grammars ∧ matches g l.
Proof.
  exists (_extract_links content). split; [done |]. split.
  - apply NoDup_elements.
  - apply _extract_links_recognised.
Qed.

End ExtractFacts.

(** ** Fetching one feed *)

Section FetchFacts.
Context `{Unicode}.
Import Crawler Verdict.

Lemma foldl_insert_union (l : list text) : ∀ s : gset text,
  foldl (λ s x, {[x]} ∪ s) s l = list_to_set l ∪ s.
Proof.
  induction l as [|x l IH]; intros s; simpl; [set_solver |].
  rewrite IH. set_solver.
Qed.

Lemma foldl_fresh_union (crawled : gset text) (l : list text) :
  ∀ acc : gset text,
  foldl (λ acc link, if decide (link ∈ crawled) then acc else {[link]} ∪ acc)
        acc l
  = acc ∪ (list_to_set l ∖ crawled).
Proof.
  induction l as [|x l IH]; intros acc; simpl; [set_solver |].
  rewrite IH. destruct (decide (x ∈ crawled)); set_solver.
Qed.

Lemma scan_entry_spec crawled new_links e :
  scan_entry crawled new_links e
  = new_links ∪ (Extract._extract_links (entry_text e) ∖ crawled).
Proof.
  unfold scan_entry. rewrite foldl_fresh_union.
  by rewrite list_to_set_elements_L.
Qed.

Lemma scan_entries_spec crawled es : ∀ new_links,
  foldl (scan_entry crawled) new_links es
  = new_links ∪ (links_in es ∖ crawled).
Proof.
  unfold links_in.
  induction es as [|e es IH]; intros new_links; simpl; [set_solver |].
  rewrite IH, scan_entry_spec. set_solver.
Qed.

Section OneFeed.
Variable crawled : gset text.
Variable fetch : nat → attempt_outcome.
Variable feed_url : text.
Variable retry_count : nat.

(** The loop does what the verdict says. *)
Lemma attempts_verdict : ∀ fuel attempt new_links failed tr,
  attempt + fuel = retry_count →
  let r := attempts crawled fetch feed_url retry_count fuel attempt
                    new_links failed tr in
  match verdict_from fetch fuel attempt with
  | Succeeded es =>
      result r = Return (new_links ∪ (links_in es ∖ crawled))
      ∧ failed_after r = failed ∖ {[feed_url]}
  | Exhausted raised =>
      result r = Return new_links
      ∧ failed_after r = (if raised then {[feed_url]} ∪ failed else failed)
  | Escaped msg => result r = Raise msg ∧ failed_after r = failed
  end.
Proof.
  induction fuel as [|fuel IH]; intros attempt new_links failed tr Hb; simpl;
    [done |].
  assert (Nat.ltb attempt retry_count = true) as -> by (apply Nat.ltb_lt; lia).
  destruct (fetch attempt) as [msg|msg|es|msg]; simpl.
  - destruct fuel as [|fuel'].
    + assert (Nat.ltb (S attempt) retry_count = false) as ->
        by (apply Nat.ltb_ge; lia).
      done.
    + assert (Nat.ltb (S attempt) retry_count = true) as ->
        by (apply Nat.ltb_lt; lia).
      apply IH. lia.
  - destruct fuel as [|fuel']; [done |]. apply IH. lia.
  - by rewrite scan_entries_spec.
  - done.
Qed.

(** The loop sleeps as the schedule says. *)
Lemma attempts_slept : ∀ fuel attempt new_links failed tr,
  attempt + fuel = retry_count →
  slept (attempts crawled fetch feed_url retry_count fuel attempt
                  new_links failed tr)
  = tr ++ schedule fetch retry_count fuel (S attempt).
Proof.
  induction fuel as [|fuel IH]; intros attempt new_links failed tr Hb; simpl.
  - by rewrite app_nil_r.
  - assert (Nat.ltb attempt retry_count = true) as -> by (apply Nat.ltb_lt; lia).
    assert (after_failure retry_count = λ msg a,
              (if contains remote_closed msg then [Secs 5] else [])
              ++ (if Nat.ltb (S a) retry_count then [Secs (2 * S a)] else []))
      as Haf by done.
    assert ((if Nat.ltb (S attempt) retry_count
             then [Secs (2 * S attempt)] else [])
            = (if decide (S attempt = retry_count)
               then [] else [Secs (2 * S attempt)])) as Hlast.
    { destruct (decide (S attempt = retry_count)) as [<- | Hne].
      - by rewrite Nat.ltb_irrefl.
      - assert (Nat.ltb (S attempt) retry_count = true) as ->
          by (apply Nat.ltb_lt; lia).
        done. }
    destruct (fetch attempt) as [msg|msg|es|msg]; simpl.
    + rewrite IH by lia. rewrite Haf, Hlast. by rewrite <- !app_assoc.
    + rewrite IH by lia. rewrite Haf, Hlast. by rewrite <- !app_assoc.
    + done.
    + done.
Qed.

Lemma attempts_S fuel attempt new_links failed tr :
  attempts crawled fetch feed_url retry_count (S fuel) attempt
           new_links failed tr
  = if Nat.ltb attempt retry_count then
      match fetch attempt with
      | HandlerFails msg =>
          {| result := Raise msg; failed_after := failed;
             slept := tr ++ [Uniform 1 3] |}
      | Bozo msg =>
          attempts crawled fetch feed_url retry_count fuel (S attempt)
            new_links failed
            ((tr ++ [Uniform 1 3]) ++ after_failure retry_count msg attempt)
      | Parsed entries =>
          {| result := Return (foldl (scan_entry crawled) new_links entries);
             failed_after := failed ∖ {[feed_url]};
             slept := tr ++ [Uniform 1 3] |}
      | Raises msg =>
          attempts crawled fetch feed_url retry_count fuel (S attempt)
            new_links
            (if Nat.ltb (S attempt) retry_count then failed
             else {[feed_url]} ∪ failed)
            ((tr ++ [Uniform 1 3]) ++ after_failure retry_count msg attempt)
      end
    else {| result := Return new_links; failed_after := failed; slept := tr |}.
Proof. reflexivity. Qed.

(** The bound on the iterations is never what ends the loop: more fuel
    changes nothing. *)
Lemma attempts_fuel : ∀ fuel attempt new_links failed tr,
  retry_count ≤ attempt + fuel →
  attempts crawled fetch feed_url retry_count (S fuel) attempt
           new_links failed tr
  = attempts crawled fetch feed_url retry_count fuel attempt
             new_links failed tr.
Proof.
  induction fuel as [|fuel IH]; intros attempt new_links failed tr Hb.
  - simpl. assert (Nat.ltb attempt retry_count = false) as ->
      by (apply Nat.ltb_ge; lia).
    done.
  - rewrite (attempts_S (S fuel)), (attempts_S fuel).
    destruct (Nat.ltb attempt retry_count); [| done].
    destruct (fetch attempt); try done; apply IH; lia.
Qed.

End OneFeed.

Lemma crawl_rss_feed_verdict crawled fetch feed_url failed :
  let r := crawl_rss_feed crawled fetch feed_url failed in
  match verdict_of fetch 3 with
  | Succeeded es =>
      result r = Return (links_in es ∖ crawled)
      ∧ failed_after r = failed ∖ {[feed_url]}
  | Exhausted raised =>
      result r = Return ∅
      ∧ failed_after r = (if raised then {[feed_url]} ∪ failed else failed)
  | Escaped msg => result r = Raise msg ∧ failed_after r = failed
  end.
Proof.
  pose proof (attempts_verdict crawled fetch feed_url 3 3 0 ∅ failed []
                eq_refl) as Hv.
  unfold crawl_rss_feed, _crawl_single_feed, verdict_of.
  cbv zeta in Hv |- *.
  destruct (verdict_from fetch 3 0); [| done | done].
  destruct Hv as [-> ->]. split; [| done]. f_equal. set_solver.
Qed.

(** The merge step in the terms of the verdict. *)
Lemma merge_spec crawled fetches acc feed_url :
  merge crawled fetches acc feed_url
  = (fst acc ∪ (links_in (served (fetches feed_url)) ∖ crawled),
     marked (verdict_of (fetches feed_url) 3) feed_url (snd acc)).
Proof.
  unfold merge, served.
  pose proof (crawl_rss_feed_verdict crawled (fetches feed_url) feed_url
                (snd acc)) as Hv. cbv zeta in Hv.
  destruct (verdict_of (fetches feed_url) 3) as [es|[|]|msg];
    destruct Hv as [-> ->]; simpl; f_equal; unfold links_in; set_solver.
Qed.

Lemma foldl_merge_spec crawled fetches : ∀ feeds acc,
  foldl (merge crawled fetches) acc feeds
  = (fst acc ∪ (⋃ ((λ f, links_in (served (fetches f))) <$> feeds) ∖ crawled),
     foldl (λ failed f, marked (verdict_of (fetches f) 3) f failed)
           (snd acc) feeds).
Proof.
  induction feeds as [|f feeds IH]; intros acc; simpl.
  - destruct acc. simpl. f_equal. set_solver.
  - rewrite IH, merge_spec. simpl. f_equal. set_solver.
Qed.

End FetchFacts.

(** ** One cycle *)

Section CycleFacts.
Context `{Unicode}.
Import Crawler Verdict.

Lemma save_crawled (t1 t2 : datetime) (new_links : gset text) w :
  crawled_links (fst (_save_links t1 t2 new_links w))
  = new_links ∪ crawled_links (fst w).
Proof.
  unfold _save_links. destruct (decide (new_links = ∅)) as [-> | _].
  - set_solver.
  - simpl. by rewrite foldl_insert_union, list_to_set_elements_L.
Qed.

Lemma save_failed (t1 t2 : datetime) (new_links : gset text) w :
  failed_feeds (fst (_save_links t1 t2 new_links w)) = failed_feeds (fst w).
Proof. unfold _save_links. by destruct (decide (new_links = ∅)). Qed.

Lemma save_failed_log (t1 t2 : datetime) (new_links : gset text) w :
  failed_log (snd (_save_links t1 t2 new_links w)) = failed_log (snd w).
Proof. unfold _save_links. by destruct (decide (new_links = ∅)). Qed.

Lemma run_cycle_new env w :
  snd (run_cycle env w) = cycle_found env ∖ crawled_links (fst w).
Proof.
  unfold run_cycle, cycle_found. simpl. rewrite foldl_merge_spec. simpl.
  set_solver.
Qed.

Lemma run_cycle_crawled env w :
  crawled_links (fst (fst (run_cycle env w)))
  = snd (run_cycle env w) ∪ crawled_links (fst w).
Proof. unfold run_cycle. simpl. by rewrite save_crawled. Qed.

Lemma run_cycle_failed env w :
  failed_feeds (fst (fst (run_cycle env w)))
  = foldl (λ failed f, marked (verdict_of (fetches env f) 3) f failed)
          (failed_feeds (fst w)) (completion env).
Proof.
  unfold run_cycle. simpl. rewrite save_failed. simpl.
  by rewrite foldl_merge_spec.
Qed.

Lemma run_cycle_failed_log env w :
  failed_log (snd (fst (run_cycle env w)))
  = if decide (failed_feeds (fst (fst (run_cycle env w))) = ∅)
    then failed_log (snd w)
    else append (failure_section (now_log env)
                   (failed_feeds (fst (fst (run_cycle env w)))))
                (failed_log (snd w)).
Proof.
  unfold run_cycle. simpl.
  destruct (decide (failed_feeds (fst (_save_links _ _ _ _)) = ∅)); simpl;
    by rewrite save_failed_log.
Qed.

Lemma run_cons env envs w :
  run (env :: envs) w = run envs (fst (run_cycle env w)).
Proof. reflexivity. Qed.

Lemma run_crawled_mono : ∀ envs w,
  crawled_links (fst w) ⊆ crawled_links (fst (run envs w)).
Proof.
  induction envs as [|env envs IH]; intros w; [done |].
  rewrite run_cons. etrans; [| apply IH]. rewrite run_cycle_crawled.
  set_solver.
Qed.

Lemma verdict_from_ext (f g : nat → attempt_outcome) :
  (∀ n, f n = g n) → ∀ k a, verdict_from f k a = verdict_from g k a.
Proof.
  intros Hfg. induction k as [|k IH]; intros a; simpl; [done |].
  rewrite Hfg. destruct (g a); try done; destruct k; try done; apply IH.
Qed.

Lemma served_ext (f g : nat → attempt_outcome) :
  (∀ n, f n = g n) → served f = served g.
Proof. intros Hfg. unfold served, verdict_of. by rewrite (verdict_from_ext f g). Qed.

Lemma elem_of_cycle_found env l :
  l ∈ cycle_found env ↔
  ∃ f, f ∈ completion env ∧ l ∈ links_in (served (fetches env f)).
Proof.
  unfold cycle_found. rewrite elem_of_union_list. split.
  - intros (X & HX & Hl). apply list_elem_of_fmap in HX as (f & -> & Hf).
    by exists f.
  - intros (f & Hf & Hl). eexists. split; [| done].
    apply list_elem_of_fmap. by exists f.
Qed.


(** C2: a link in the store is not in the new links of the cycle, nor of any
    later cycle; the new links of a cycle are the distinct links found that
    the store did not hold, so their count is the count of those; and a
    second cycle over the same feed content has no new link at all. *)
Theorem seen_links_are_not_new_again (env1 env2 : cycle_env)
    (w : crawler * disk) :
  (∀ f n, fetches env2 f n = fetches env1 f n) →
  (∀ f, f ∈ completion env2 → f ∈ completion env1) →
  let r1 := run_cycle env1 w in
  let r2 := run_cycle env2 (fst r1) in
  (∀ l, l ∈ crawled_links (fst w) → l ∉ snd r1)
  ∧ (∀ envs env l, l ∈ crawled_links (fst w) →
       l ∉ snd (run_cycle env (run envs w)))
  ∧ snd r1 = cycle_found env1 ∖ crawled_links (fst w)
  ∧ size (snd r1) = size (cycle_found env1 ∖ crawled_links (fst w))
  ∧ crawled_links (fst (fst r1)) = snd r1 ∪ crawled_links (fst w)
  ∧ snd r2 = ∅
  ∧ size (snd r2) = 0.
Proof.
  intros Hsame Hfeeds r1 r2.
  assert (snd r2 = ∅) as Hr2.
  { unfold r2. rewrite run_cycle_new. unfold r1.
    rewrite run_cycle_crawled, run_cycle_new.
    apply set_eq. intros l. split; [| set_solver].
    intros [Hl Hn]%elem_of_difference. exfalso. apply Hn.
    apply elem_of_cycle_found in Hl as (f & Hf & Hl).
    rewrite (served_ext _ _ (Hsame f)) in Hl.
    destruct (decide (l ∈ crawled_links (fst w))); [set_solver |].
    apply elem_of_union. left. apply elem_of_difference. split; [| done].
    apply elem_of_cycle_found. exists f. split; [by apply Hfeeds | done]. }
  repeat split.
  - intros l Hl. unfold r1. rewrite run_cycle_new. set_solver.
  - intros envs env l Hl. rewrite run_cycle_new.
    pose proof (run_crawled_mono envs w). set_solver.
  - apply run_cycle_new.
  - unfold r1. by rewrite run_cycle_new.
  - apply run_cycle_crawled.
  - done.
  - rewrite Hr2. apply size_empty.
Qed.

End CycleFacts.

(** ** The failed set across cycles *)

Section FailedFacts.
Context `{Unicode}.
Import Crawler Verdict.

Lemma marked_other (v : verdict) (f g : text) (failed : gset text) :
  g ≠ f → (g ∈ marked v f failed ↔ g ∈ failed).
Proof. intros Hne. destruct v as [es|[|]|msg]; simpl; set_solver. Qed.

Lemma marked_self (v : verdict) (g : text) (failed : gset text) :
  g ∈ marked v g failed ↔
  match v with
  | Succeeded _ => False
  | Exhausted true | Escaped _ => True
  | Exhausted false => g ∈ failed
  end.
Proof. destruct v as [es|[|]|msg]; simpl; set_solver. Qed.

(** After the merge loop a feed that was fetched stands as its own fetch
    left it; a feed that was not fetched stands as before. *)
Lemma foldl_marked_elem (v : text → verdict) (g : text) : ∀ feeds failed,
  g ∈ foldl (λ failed f, marked (v f) f failed) failed feeds ↔
  if decide (g ∈ feeds) then g ∈ marked (v g) g failed else g ∈ failed.
Proof.
  induction feeds as [|f feeds IH]; intros failed; simpl.
  - destruct (decide (g ∈ [])) as [Hin | _]; [by apply elem_of_nil in Hin | done].
  - rewrite IH. destruct (decide (g = f)) as [-> | Hne].
    + destruct (decide (f ∈ f :: feeds)) as [_ | Hn]; [| set_solver].
      destruct (decide (f ∈ feeds)); [| done].
      rewrite !marked_self. destruct (v f) as [es|[|]|msg]; try done.
    + destruct (decide (g ∈ feeds)) as [Hin | Hn].
      * destruct (decide (g ∈ f :: feeds)) as [_ | Hn']; [| set_solver].
        rewrite !marked_self. destruct (v g) as [es|[|]|msg]; try done.
        by apply marked_other.
      * destruct (decide (g ∈ f :: feeds)) as [Hin' | _]; [set_solver |].
        by apply marked_other.
Qed.

Lemma run_cycle_failed_elem env w g :
  g ∈ failed_feeds (fst (fst (run_cycle env w))) ↔
  if decide (g ∈ completion env)
  then g ∈ marked (verdict_of (fetches env g) 3) g (failed_feeds (fst w))
  else g ∈ failed_feeds (fst w).
Proof.
  rewrite run_cycle_failed.
  apply (foldl_marked_elem (λ f, verdict_of (fetches env f) 3)).
Qed.


End FailedFacts.

Section FailureClaims.
Context `{Unicode}.
Import Crawler Verdict.

(** The sibling path: when the last attempt ends in the exception handler,
    the feed is added to the failed set and the log gains a section. *)
Lemma raise_exhaustion_is_recorded (crawled : gset text) (d : disk)
    (t1 t2 t3 : datetime) (feed_url msg : text) :
  let env := {| fetches := λ _ _, Raises msg; completion := [feed_url];
                now_name := t1; now_header := t2; now_log := t3 |} in
  let w := ({| rss_feeds := [feed_url]; crawled_links := crawled;
               failed_feeds := ∅ |}, d) in
  snd (run_cycle env w) = ∅
  ∧ failed_feeds (fst (fst (run_cycle env w))) = {[feed_url]}
  ∧ failed_log (snd (fst (run_cycle env w)))
    = append (failure_section t3 {[feed_url]}) (failed_log d).
Proof.
  intros env w.
  assert (failed_feeds (fst (fst (run_cycle env w))) = {[feed_url]}) as Hf.
  { rewrite run_cycle_failed. simpl. set_solver. }
  split; [| split; [done |]].
  - rewrite run_cycle_new.
    change (cycle_found env) with (⋃ [links_in []]).
    unfold links_in. simpl. set_solver.
  - rewrite run_cycle_failed_log, Hf.
    destruct (decide ({[feed_url]} = (∅ : gset text))) as [He | _]; [| done].
    exfalso. set_solver.
Qed.

(** C1, at a feed all of whose attempts end in a parse failure ([bozo]
    set): the fetch returns the empty set and exhausts its attempts, yet the
    feed is not in the failed set after the cycle and the failure log is as
    it was.  The claim asks for the feed to be recorded and for one new
    section, as happens when the attempts end in exceptions. *)
Theorem bozo_exhaustion_leaves_no_record (crawled : gset text) (d : disk)
    (t1 t2 t3 : datetime) (feed_url msg : text) :
  let env := {| fetches := λ _ _, Bozo msg; completion := [feed_url];
                now_name := t1; now_header := t2; now_log := t3 |} in
  let w := ({| rss_feeds := [feed_url]; crawled_links := crawled;
               failed_feeds := ∅ |}, d) in
  let task := crawl_rss_feed crawled (fetches env feed_url) feed_url ∅ in
  verdict_of (fetches env feed_url) 3 = Exhausted false
  ∧ result task = Return ∅
  ∧ (feed_url ∉ failed_after task)
  ∧ (feed_url ∉ failed_feeds (fst (fst (run_cycle env w))))
  ∧ failed_log (snd (fst (run_cycle env w))) = failed_log d.
Proof.
  intros env w task.
  assert (failed_feeds (fst (fst (run_cycle env w))) = ∅) as Hf.
  { rewrite run_cycle_failed. done. }
  split; [done |]. split; [done |]. split; [set_solver |].
  split; [rewrite Hf; set_solver |].
  rewrite run_cycle_failed_log, Hf.
  by destruct (decide ((∅ : gset text) = ∅)).
Qed.



End FailureClaims.

(** ** Worked cases *)

Section Worked.
Import Crawler Verdict Sample.


End Worked.

(** ** The link store *)

Section StoreFacts.
Import File Crawler Stored.

Lemma translate_app_char : ∀ s b c t,
  translate b (s ++ c :: t) = translate b (s ++ [c]) ++ translate (is_cr c) t.
Proof.
  induction s as [|d s IH]; intros b c t; simpl.
  - destruct (is_cr c) eqn:Ec; simpl; [done |].
    destruct (is_lf c && b); done.
  - destruct (is_cr d); [by rewrite IH |].
    destruct (is_lf d && b); by rewrite IH.
Qed.

Lemma translate_no_cr t :
  Forall (λ c, is_cr c = false) t → translate false t = t.
Proof.
  induction 1 as [|c t Hc _ IH]; simpl; [done |].
  rewrite Hc, andb_false_r. by rewrite IH.
Qed.

(** What is read of a file that ends in a line feed ends in one too, unless
    that line feed only completes a pending [\r\n]. *)
Lemma translate_ends_line : ∀ s b,
  (translate b (s ++ [Ch 10]) = [] ∧ b = true)
  ∨ ∃ u, translate b (s ++ [Ch 10]) = u ++ [Ch 10].
Proof.
  induction s as [|d s IH]; intros b; simpl.
  - destruct b; [by left | right; by exists []].
  - right. destruct (is_cr d).
    + destruct (IH true) as [[-> _] | [u ->]]; [by exists [] |].
      by exists (Ch 10 :: u).
    + destruct (is_lf d && b).
      * destruct (IH false) as [[_ ?] | [u ->]]; [done | by exists u].
      * destruct (IH false) as [[_ ?] | [u ->]]; [done | by exists (d :: u)].
Qed.

Lemma split_lines_app_lf : ∀ u cur t,
  split_lines cur (u ++ Ch 10 :: t)
  = split_lines cur (u ++ [Ch 10]) ++ split_lines [] t.
Proof.
  induction u as [|d u IH]; intros cur t; simpl; [done |].
  destruct (is_lf d); [by rewrite IH | apply IH].
Qed.

Lemma split_lines_one_line : ∀ (l : text) cur,
  Forall (λ c, c ≠ 10%N) l →
  split_lines cur (encode l ++ [Ch 10]) = [rev cur ++ encode l ++ [Ch 10]].
Proof.
  induction l as [|c l IH]; intros cur Hl; simpl; [done |].
  apply Forall_cons in Hl as [Hc Hl].
  assert ((c =? 10)%N = false) as -> by by apply N.eqb_neq.
  rewrite IH by done. simpl. by rewrite <- app_assoc.
Qed.

Lemma encode_line l : encode (line l) = encode l ++ [Ch 10].
Proof. unfold encode, line. by rewrite fmap_app. Qed.

Lemma readlines_append (s : fdata) (l : text) :
  s = [] ∨ (∃ s', s = s' ++ [Ch 10]) →
  Forall (λ c, c ≠ 10%N ∧ c ≠ 13%N) l →
  readlines (s ++ encode (line l)) = readlines s ++ [encode (line l)].
Proof.
  intros Hs Hl. unfold readlines.
  assert (translate false (encode (line l)) = encode (line l)) as Ht.
  { apply translate_no_cr. rewrite encode_line. apply Forall_app. split.
    - unfold encode. apply Forall_fmap. eapply Forall_impl; [apply Hl |].
      intros c [_ Hc]. simpl. by apply N.eqb_neq.
    - by repeat constructor. }
  assert (split_lines [] (encode (line l)) = [encode (line l)]) as Hone.
  { rewrite encode_line. rewrite split_lines_one_line; [done |].
    eapply Forall_impl; [apply Hl |]. by intros c [Hc _]. }
  destruct Hs as [-> | [s' ->]].
  - simpl. by rewrite Ht, Hone.
  - rewrite <- app_assoc. simpl. rewrite translate_app_char. simpl is_cr.
    rewrite Ht.
    destruct (translate_ends_line s' false) as [[_ ?] | [u ->]]; [done |].
    rewrite <- app_assoc. simpl. by rewrite split_lines_app_lf, Hone.
Qed.

Lemma translate_readable : ∀ s b,
  Forall (λ c, c ≠ Undecodable) s →
  Forall (λ c, c ≠ Undecodable) (translate b s).
Proof.
  induction s as [|d s IH]; intros b Hs; simpl; [done |].
  apply Forall_cons in Hs as [Hd Hs].
  destruct (is_cr d); [constructor; [done | by apply IH] |].
  destruct (is_lf d && b); [by apply IH | constructor; [done | by apply IH]].
Qed.

Lemma split_lines_readable : ∀ s cur,
  Forall (λ c, c ≠ Undecodable) s →
  Forall (λ c, c ≠ Undecodable) cur →
  Forall (Forall (λ c, c ≠ Undecodable)) (split_lines cur s).
Proof.
  induction s as [|d s IH]; intros cur Hs Hcur; simpl.
  - destruct cur; [done |]. constructor; [| done]. by apply Forall_rev.
  - apply Forall_cons in Hs as [Hd Hs]. destruct (is_lf d).
    + constructor; [| by apply IH].
      apply Forall_app. split; [by apply Forall_rev | by constructor].
    + apply IH; [done | by constructor].
Qed.

Lemma decode_readable l :
  Forall (λ c, c ≠ Undecodable) l → is_Some (decode l).
Proof.
  induction 1 as [|c l Hc _ [t IH]]; simpl; [by eexists |].
  destruct c; [| done]. rewrite IH. by eexists.
Qed.

Lemma readlines_readable s :
  Forall (λ c, c ≠ Undecodable) s →
  Forall (λ l, is_Some (decode l)) (readlines s).
Proof.
  intros Hs. unfold readlines.
  eapply Forall_impl; [| apply decode_readable].
  apply split_lines_readable; [by apply translate_readable | done].
Qed.

Lemma decode_encode t : decode (encode t) = Some t.
Proof.
  unfold encode. induction t as [|c t IH]; [done |].
  rewrite fmap_cons. simpl. by rewrite IH.
Qed.

Lemma load_lines_app : ∀ ls ls2 c,
  Forall (λ l, is_Some (decode l)) ls →
  load_lines (ls ++ ls2) c = load_lines ls2 (fst (load_lines ls c)).
Proof.
  induction ls as [|l ls IH]; intros ls2 c Hls; simpl; [done |].
  apply Forall_cons in Hls as [[t Ht] Hls]. rewrite Ht. by apply IH.
Qed.


Lemma strip_line l : strip (line l) = strip l.
Proof.
  unfold strip, rstrip, line. by rewrite rev_app_distr.
Qed.

Lemma load_line l c :
  storable l → load_lines [encode (line l)] c = ({[l]} ∪ c, true).
Proof.
  intros (Hne & Hs & _). simpl. rewrite decode_encode, strip_line, Hs.
  by destruct l.
Qed.

Lemma whole_lines_append f l :
  whole_lines f → whole_lines (append (encode (line l)) f).
Proof.
  intros Hf. unfold append. simpl. rewrite encode_line. split.
  - apply Forall_app. split.
    + destruct f as [s|]; [apply Hf | done].
    + apply Forall_app. split; [| by repeat constructor].
      unfold encode. apply Forall_fmap. by apply Forall_true.
  - right. exists (default [] f ++ encode l). by rewrite <- app_assoc.
Qed.

Lemma stored_append f l :
  whole_lines f → storable l →
  stored (append (encode (line l)) f) = {[l]} ∪ stored f.
Proof.
  intros Hf Hl. unfold stored, append, _load_existing_links. simpl.
  assert (whole_lines (Some (default [] f))) as [Hr He].
  { destruct f; [done |]. split; [done | by left]. }
  rewrite readlines_append; [| done | apply Hl].
  rewrite load_lines_app by by apply readlines_readable.
  rewrite load_line by done. simpl. destruct f; [done |]. simpl. done.
Qed.

Lemma stored_fold : ∀ (ls : list text) f,
  whole_lines f → Forall storable ls →
  let f' := foldl (λ f link, append (encode (line link)) f) f ls in
  whole_lines f' ∧ stored f' = list_to_set ls ∪ stored f.
Proof.
  induction ls as [|l ls IH]; intros f Hf Hls; simpl.
  - split; [done | set_solver].
  - apply Forall_cons in Hls as [Hl Hls].
    destruct (IH (append (encode (line l)) f)) as [Hw Hst];
      [by apply whole_lines_append | done |].
    split; [done |]. simpl in Hst. rewrite Hst, stored_append by done.
    set_solver.
Qed.

Lemma save_stored (t1 t2 : datetime) (new_links : gset text) w :
  whole_lines (all_links_file (snd w)) →
  (∀ l, l ∈ new_links → storable l) →
  whole_lines (all_links_file (snd (_save_links t1 t2 new_links w)))
  ∧ stored (all_links_file (snd (_save_links t1 t2 new_links w)))
    = new_links ∪ stored (all_links_file (snd w)).
Proof.
  intros Hw Hl. unfold _save_links.
  destruct (decide (new_links = ∅)) as [-> | _]; [split; [done | set_solver] |].
  simpl.
  destruct (stored_fold (elements new_links) (all_links_file (snd w)) Hw)
    as [Hw' Hst].
  { apply Forall_forall. intros l Hin. apply Hl. by apply elem_of_elements. }
  split; [done |]. simpl in Hst. by rewrite Hst, list_to_set_elements_L.
Qed.

End StoreFacts.

Section DiskFacts.
Import File Crawler Stored.

Lemma foldl_append_written : ∀ (ls : list text) (f : option fdata),
  default [] (foldl (λ f link, append (encode (line link)) f) f ls)
  = default [] f ++ concat ((λ l, encode (line l)) <$> ls).
Proof.
  induction ls as [|l ls IH]; intros f; simpl; [by rewrite app_nil_r |].
  rewrite IH. simpl. by rewrite <- app_assoc.
Qed.

Lemma save_master (t1 t2 : datetime) (new_links : gset text) w :
  default [] (all_links_file (snd (_save_links t1 t2 new_links w)))
  = default [] (all_links_file (snd w)) ++ written new_links.
Proof.
  unfold _save_links, written.
  destruct (decide (new_links = ∅)) as [-> | _].
  - rewrite elements_empty. simpl. by rewrite app_nil_r.
  - simpl. apply foldl_append_written.
Qed.

Lemma save_snapshots (t1 t2 : datetime) (new_links : gset text) w :
  new_links ≠ ∅ →
  snapshots (snd (_save_links t1 t2 new_links w))
  = <[_get_timestamp_filename t1 := snapshot_text t2 new_links]>
      (snapshots (snd w)).
Proof. intros Hne. unfold _save_links. by destruct (decide (new_links = ∅)). Qed.

End DiskFacts.

Section DiskClaims.
Context `{Unicode}.
Import File Crawler Stored.

Lemma run_cycle_master env w :
  default [] (all_links_file (snd (fst (run_cycle env w))))
  = default [] (all_links_file (snd w)) ++ written (snd (run_cycle env w)).
Proof.
  unfold run_cycle. cbn [fst snd].
  destruct (decide (failed_feeds (fst (_save_links _ _ _ _)) = ∅));
    cbn [all_links_file]; by rewrite save_master.
Qed.

Lemma run_cycle_snapshots env w :
  snd (run_cycle env w) ≠ ∅ →
  snapshots (snd (fst (run_cycle env w)))
  = <[_get_timestamp_filename (now_name env)
      := snapshot_text (now_header env) (snd (run_cycle env w))]>
      (snapshots (snd w)).
Proof.
  intros Hne. unfold run_cycle in *. cbn [fst snd] in *.
  destruct (decide (failed_feeds (fst (_save_links _ _ _ _)) = ∅));
    cbn [snapshots]; by rewrite save_snapshots.
Qed.

Lemma run_cycle_log_grows env w :
  ∃ more, default [] (failed_log (snd (fst (run_cycle env w))))
          = default [] (failed_log (snd w)) ++ more.
Proof.
  rewrite run_cycle_failed_log.
  destruct (decide (failed_feeds (fst (fst (run_cycle env w))) = ∅)).
  - exists []. by rewrite app_nil_r.
  - eexists. reflexivity.
Qed.

(** C10: the name of the snapshot file is made of month, day, hour and
    minute only, and the file is written anew each time.  So when two
    cycles that each find a new link read the clock in the same minute, the
    snapshot of the first is replaced by that of the second.  The master
    link file and the failure log only grow: what they held stays in front
    of what the cycles append. *)
Theorem same_minute_snapshot_is_replaced (env1 env2 : cycle_env)
    (w : crawler * disk) :
  snd (run_cycle env1 w) ≠ ∅ →
  snd (run_cycle env2 (fst (run_cycle env1 w))) ≠ ∅ →
  month (now_name env1) = month (now_name env2) →
  day (now_name env1) = day (now_name env2) →
  hour (now_name env1) = hour (now_name env2) →
  minute (now_name env1) = minute (now_name env2) →
  let r1 := run_cycle env1 w in
  let r2 := run_cycle env2 (fst r1) in
  let name := _get_timestamp_filename (now_name env1) in
  _get_timestamp_filename (now_name env2) = name
  ∧ snapshots (snd (fst r1)) !! name
    = Some (snapshot_text (now_header env1) (snd r1))
  ∧ snapshots (snd (fst r2)) !! name
    = Some (snapshot_text (now_header env2) (snd r2))
  ∧ default [] (all_links_file (snd (fst r2)))
    = default [] (all_links_file (snd w)) ++ written (snd r1) ++ written (snd r2)
  ∧ ∃ more, default [] (failed_log (snd (fst r2)))
            = default [] (failed_log (snd w)) ++ more.
Proof.
  intros Hn1 Hn2 Hmo Hd Hh Hmi r1 r2 name.
  assert (_get_timestamp_filename (now_name env2) = name) as Hname.
  { unfold name, _get_timestamp_filename. by rewrite Hmo, Hd, Hh, Hmi. }
  split; [done |]. split; [| split; [| split]].
  - unfold r1. rewrite run_cycle_snapshots by done. apply lookup_insert_eq.
  - unfold r2. rewrite run_cycle_snapshots by done. rewrite Hname.
    apply lookup_insert_eq.
  - unfold r2. rewrite run_cycle_master. unfold r1. rewrite run_cycle_master.
    by rewrite <- app_assoc.
  - destruct (run_cycle_log_grows env1 w) as [m1 H1].
    destruct (run_cycle_log_grows env2 (fst r1)) as [m2 H2].
    exists (m1 ++ m2). unfold r2. rewrite H2. unfold r1. rewrite H1.
    by rewrite <- app_assoc.
Qed.

End DiskClaims.

Section StoreClaims.
Import File Crawler Stored.

(** C4, as amended: starting from a master file that reads to its end in
    whole lines, and recording only links that are not empty, hold no line
    break and have no white space at either end, a reload of the master
    file gives the set in memory, which is what the file held at start-up
    together with every link recorded since; and recording the same set a
    second time leaves the set in memory as it was. *)
Theorem recorded_links_reload (feeds : list text) (d : disk)
    (saves : list (datetime * datetime * gset text)) :
  whole_lines (all_links_file d) →
  (∀ s l, s ∈ saves → l ∈ snd s → storable l) →
  let w := foldl (λ w s, _save_links (fst (fst s)) (snd (fst s)) (snd s) w)
                 (fst (init feeds d), d) saves in
  stored (all_links_file (snd w)) = crawled_links (fst w)
  ∧ crawled_links (fst w) = stored (all_links_file d) ∪ ⋃ (snd <$> saves)
  ∧ ∀ (t1 t2 t3 t4 : datetime) (links : gset text) (w' : crawler * disk),
      crawled_links (fst (_save_links t3 t4 links (_save_links t1 t2 links w')))
      = crawled_links (fst (_save_links t1 t2 links w')).
Proof.
  intros Hd Hs w.
  assert (∀ (ss : list (datetime * datetime * gset text)) (w0 : crawler * disk),
            whole_lines (all_links_file (snd w0)) →
            (∀ s l, s ∈ ss → l ∈ snd s → storable l) →
            let w1 := foldl (λ w s, _save_links (fst (fst s)) (snd (fst s))
                                                (snd s) w) w0 ss in
            stored (all_links_file (snd w1))
            = stored (all_links_file (snd w0)) ∪ ⋃ (snd <$> ss)
            ∧ crawled_links (fst w1)
              = crawled_links (fst w0) ∪ ⋃ (snd <$> ss)) as Hgen.
  { induction ss as [|s ss IH]; intros w0 Hw0 Hss; simpl.
    - split; set_solver.
    - destruct (save_stored (fst (fst s)) (snd (fst s)) (snd s) w0 Hw0)
        as [Hw1 Hst1].
      { intros l Hl. apply (Hss s); [by left | done]. }
      destruct (IH (_save_links (fst (fst s)) (snd (fst s)) (snd s) w0) Hw1)
        as [Hst Hcr].
      { intros s' l Hs' Hl. apply (Hss s'); [by right | done]. }
      simpl in Hst, Hcr. rewrite Hst, Hcr, Hst1, save_crawled. set_solver. }
  destruct (Hgen saves (fst (init feeds d), d) Hd Hs) as [Hst Hcr].
  split; [| split].
  - unfold w. rewrite Hst, Hcr. done.
  - unfold w. by rewrite Hcr.
  - intros t1 t2 t3 t4 links w'. rewrite !save_crawled. set_solver.
Qed.


End StoreClaims.

Ltac by_computation :=
  match goal with
  | |- ?P => apply (bool_decide_unpack P); vm_compute; exact I
  end.

Section WorkedStore.
Import File Crawler Verdict Stored Sample.



(** C4, as first stated, fails: an entry whose title and summary are the
    two halves of an ed2k link yields the link with the line break between
    them; it is recorded and is in the set in memory, and a reload of the
    master file does not give it back. *)
Lemma link_with_line_break_does_not_reload :
  let r := @run_cycle cjk_table (cycle (λ _ _, Parsed [halves]) [feed_a] noon)
                      (fresh [feed_a]) in
  whole_ed2k ∈ snd r
  ∧ whole_ed2k ∈ crawled_links (fst (fst r))
  ∧ (whole_ed2k ∉ stored (all_links_file (snd (fst r))))
  ∧ stored (all_links_file (snd (fst r))) ≠ crawled_links (fst (fst r)).
Proof.
  intros r.
  assert (whole_ed2k ∈ crawled_links (fst (fst r))) as Hin by by_computation.
  assert (whole_ed2k ∉ stored (all_links_file (snd (fst r)))) as Hout
    by by_computation.
  split; [by_computation |]. split; [done |]. split; [done |].
  intros Heq. apply Hout. by rewrite Heq.
Qed.

(** A master file whose last line is not terminated: the first link
    appended runs into it. *)
Lemma unterminated_master_merges_lines :
  let d := with_master (encode (str "https://quark.cn/s/old")) in
  let w := _save_links noon noon {[str "https://quark.cn/s/new"]}
                       (fst (init [] d), d) in
  stored (all_links_file (snd w))
  = {[ str "https://quark.cn/s/oldhttps://quark.cn/s/new" ]}.
Proof. vm_compute. reflexivity. Qed.

(** The reload theorem at a master file of one link and one recording. *)
Lemma recorded_links_witness :
  let d := with_master (encode (line (str "https://quark.cn/s/old"))) in
  let saves := [(noon, noon_later, ({[str "https://quark.cn/s/new"]} : gset text))] in
  whole_lines (all_links_file d)
  ∧ (∀ s l, s ∈ saves → l ∈ snd s → storable l)
  ∧ stored (all_links_file
              (snd (foldl (λ w s, _save_links (fst (fst s)) (snd (fst s))
                                              (snd s) w)
                          (fst (init [feed_a] d), d) saves)))
    = stored (all_links_file d) ∪ ⋃ (snd <$> saves).
Proof.
  intros d saves.
  assert (whole_lines (all_links_file d)) as H1.
  { split.
    - by_computation.
    - right. by exists (encode (str "https://quark.cn/s/old")). }
  assert (∀ s l, s ∈ saves → l ∈ snd s → storable l) as H2.
  { intros s l Hs Hl. apply list_elem_of_singleton in Hs. subst s.
    simpl in Hl. apply elem_of_singleton in Hl. subst l.
    unfold storable. by_computation. }
  split; [exact H1 |]. split; [exact H2 |].
  destruct (recorded_links_reload [feed_a] d saves H1 H2) as (Ha & Hb & _).
  cbv zeta in Ha, Hb. rewrite Ha. exact Hb.
Defined.

End WorkedStore.

Section WorkedCycles.
Import File Crawler Verdict Stored Sample.

(** A feed that fails on the remote-closed signature, then on a parse
    failure, then parses: cool-down and back-off after the first attempt,
    back-off after the second, nothing after the third. *)
Example sleeps_of_third_time_lucky :
  slept (@crawl_rss_feed cjk_table ∅ (five feed_b) feed_b ∅)
  = [Uniform 1 3; Secs 5; Secs 2; Uniform 1 3; Secs 4; Uniform 1 3].
Proof. vm_compute. reflexivity. Qed.

(** A feed that fails three times on the remote-closed signature: the
    cool-down follows the last attempt too, the back-off does not. *)
Example sleeps_of_remote_closed :
  slept (@crawl_rss_feed cjk_table ∅ (λ _, Raises remote_closed) feed_a ∅)
  = [Uniform 1 3; Secs 5; Secs 2; Uniform 1 3; Secs 5; Secs 4;
     Uniform 1 3; Secs 5].
Proof. vm_compute. reflexivity. Qed.

(** The theorem on seen links at two feeds that carry the same link. *)
Lemma seen_links_witness :
  let env := cycle one_link [feed_a; feed_b] noon in
  let w := fresh [feed_a; feed_b] in
  (∀ f n, fetches env f n = fetches env f n)
  ∧ (∀ f, f ∈ completion env → f ∈ completion env)
  ∧ snd (@run_cycle cjk_table env w) = {[str "https://pan.baidu.com/s/1abcXYZ"]}
  ∧ snd (@run_cycle cjk_table env (fst (@run_cycle cjk_table env w))) = ∅.
Proof.
  intros env w.
  assert (∀ f n, fetches env f n = fetches env f n) as H1 by done.
  assert (∀ f, f ∈ completion env → f ∈ completion env) as H2 by done.
  split; [exact H1 |]. split; [exact H2 |].
  split; [vm_compute; reflexivity |].
  exact (proj1 (proj2 (proj2 (proj2 (proj2 (proj2
           (@seen_links_are_not_new_again cjk_table env env w H1 H2))))))).
Defined.



(** The theorem on snapshots at two cycles 34 seconds apart. *)
Lemma same_minute_witness :
  let env1 := cycle one_link [feed_a] noon in
  let env2 := cycle other_link [feed_a] noon_later in
  let w := fresh [feed_a] in
  let r1 := @run_cycle cjk_table env1 w in
  let r2 := @run_cycle cjk_table env2 (fst r1) in
  snd r1 ≠ ∅ ∧ snd r2 ≠ ∅
  ∧ month (now_name env1) = month (now_name env2)
  ∧ day (now_name env1) = day (now_name env2)
  ∧ hour (now_name env1) = hour (now_name env2)
  ∧ minute (now_name env1) = minute (now_name env2)
  ∧ _get_timestamp_filename (now_name env1) = str "09031200.txt"
  ∧ snapshots (snd (fst r2)) !! str "09031200.txt"
    = Some (snapshot_text (now_header env2) (snd r2)).
Proof.
  intros env1 env2 w r1 r2.
  assert (snd r1 ≠ ∅) as H1 by by_computation.
  assert (snd r2 ≠ ∅) as H2 by by_computation.
  split; [exact H1 |]. split; [exact H2 |].
  split; [reflexivity |]. split; [reflexivity |]. split; [reflexivity |].
  split; [reflexivity |]. split; [vm_compute; reflexivity |].
  exact (proj1 (proj2 (proj2
           (@same_minute_snapshot_is_replaced cjk_table env1 env2 w H1 H2
              eq_refl eq_refl eq_refl eq_refl)))).
Defined.

End WorkedCycles.

(** * Further properties *)

(** ** Where the links of the engine come from *)

Section OriginFacts.
Context `{Unicode}.
Import Re Extract Grammar Shape.

(** Every match the scan reports is an end the matcher found at some
    position of the text. *)
Lemma scan_ends_at r : ∀ s skip m,
  m ∈ scan r skip s →
  ∃ pre s0 e, s = pre ++ s0 ∧ e ∈ ends r 0 s0
              ∧ m = (consumed s0 (fst e), snd e).
Proof.
  induction s as [|d s IH]; intros skip m Hm; simpl in Hm.
  - destruct skip; [| by apply elem_of_nil in Hm].
    destruct (ends r 0 []) as [|e l] eqn:E; [by apply elem_of_nil in Hm |].
    apply list_elem_of_singleton in Hm as ->. exists [], [], e.
    split; [done |]. split; [| done]. rewrite E. apply list_elem_of_here.
  - assert (∀ k, m ∈ scan r k s →
              ∃ pre s0 e, d :: s = pre ++ s0 ∧ e ∈ ends r 0 s0
                          ∧ m = (consumed s0 (fst e), snd e)) as Hrest.
    { intros k Hk. destruct (IH _ _ Hk) as (pre & s0 & e & -> & He & ->).
      by exists (d :: pre), s0, e. }
    destruct skip; [| by eapply Hrest].
    destruct (ends r 0 (d :: s)) as [|e l] eqn:E; [by eapply Hrest |].
    apply elem_of_cons in Hm as [-> | Hm]; [| by eapply Hrest].
    exists [], (d :: s), e. split; [done |]. split; [| done].
    rewrite E. apply list_elem_of_here.
Qed.

(** What [findall] hands over, for a pattern of the shape [(r0)]: a
    stretch of the text, in the language of the pattern, not empty. *)
Lemma findall_origin r s i :
  whole_group r = true →
  i ∈ findall r s →
  ∃ m, within m s ∧ matches r m ∧ m ≠ []
       ∧ (i = FStr m ∨ ∃ gs, i = FTuple (m :: gs)).
Proof.
  intros Hr Hi. apply list_elem_of_fmap in Hi. destruct Hi as (mc & -> & Hm).
  destruct r as [| | | | | | | |r0]; try discriminate.
  simpl in Hr. apply Nat.ltb_lt in Hr.
  destruct (scan_ends_at _ _ _ _ Hm) as (pre & s0 & e & Hs & He & ->).
  destruct (ends_sound _ _ _ _ He) as (p & Hs0 & Hp).
  simpl in He. apply list_elem_of_fmap in He. destruct He as (e0 & -> & _).
  simpl in *.
  assert (consumed s0 (fst e0) = p) as Hc.
  { rewrite Hs0 at 1. apply consumed_app. }
  exists p. split; [| split; [done | split]].
  - exists pre, (fst e0). by rewrite Hs, Hs0.
  - apply matches_min_len in Hp. simpl in Hp. destruct p; simpl in *; [lia | done].
  - unfold findall_item. simpl ngroups. simpl snd. simpl fst.
    destruct (ngroups r0) as [|k].
    + left. unfold group. simpl. by rewrite Hc.
    + right. exists (group ((1, consumed s0 (fst e0)) :: snd e0) <$> seq 2 (S k)).
      simpl. unfold group at 1. simpl. by rewrite Hc.
Qed.

Lemma traced_add content r m links :
  r ∈ grammars → matches r m → within m content → m ≠ [] →
  traced content links → traced content ({[m]} ∪ links).
Proof.
  intros Hr Hm Hw Hne Hl l [->%elem_of_singleton | Hin]%elem_of_union;
    [| by apply Hl].
  by exists r.
Qed.

Lemma foldl_add_match_traced content r : ∀ items links,
  usable r → (∀ i, i ∈ items → i ∈ findall r content) →
  traced content links → traced content (foldl add_match links items).
Proof.
  induction items as [|i items IH]; intros links Hr Hsub Hl; simpl; [done |].
  apply IH; [done | |].
  - intros j Hj. apply Hsub. by right.
  - destruct Hr as [Hw Hg].
    destruct (findall_origin r content i Hw)
      as (m & Hin & Hm & Hne & [-> | [gs ->]]); [apply Hsub; by left | |].
    + simpl. by eapply traced_add.
    + simpl. destruct m as [|c m]; [done |]. simpl. by eapply traced_add.
Qed.

Lemma foldl_add_pattern_traced content : ∀ pats links,
  (∀ r, r ∈ pats → usable r) → traced content links →
  traced content (foldl (add_pattern content) links pats).
Proof.
  induction pats as [|r pats IH]; intros links Hp Hl; simpl; [done |].
  apply IH.
  - intros r' Hr'. apply Hp. by right.
  - unfold add_pattern. apply (foldl_add_match_traced content r); [| done | done].
    apply Hp. by left.
Qed.

Lemma update_traced content r : ∀ items links,
  usable r → (∀ i, i ∈ items → i ∈ findall r content) →
  traced content links → traced content (update links items).
Proof.
  unfold update.
  induction items as [|i items IH]; intros links Hr Hsub Hl; simpl; [done |].
  apply IH; [done | |].
  - intros j Hj. apply Hsub. by right.
  - destruct Hr as [Hw Hg].
    destruct (findall_origin r content i Hw)
      as (m & Hin & Hm & Hne & [-> | [gs ->]]); [apply Hsub; by left | |].
    + by eapply traced_add.
    + done.
Qed.

Lemma add_domain_traced content links d :
  d ∈ flat_map snd cloud_domains → traced content links →
  traced content (add_domain content links d).
Proof.
  intros Hd Hl. unfold add_domain.
  destruct (starts_with (str "magnet:?xt=") d || starts_with (str "ed2k://") d)
    eqn:E1; [done |].
  destruct (contains (str "/s/") d) eqn:E2; [done |].
  assert (d ∈ fallback_domains) as Hf.
  { unfold fallback_domains. apply list_elem_of_filter. split; [| done].
    rewrite E1, E2. done. }
  pose proof (usable_fallback _ Hf) as Hu. unfold fallback_pattern in Hu.
  destruct (existsb _ d).
  - destruct (contains d content); [| done]. by eapply update_traced.
  - by eapply update_traced.
Qed.

Lemma foldl_domains_traced content : ∀ kvs links,
  (∀ kv, kv ∈ kvs → kv ∈ cloud_domains) → traced content links →
  traced content
    (foldl (λ links kv, foldl (add_domain content) links (snd kv)) links kvs).
Proof.
  induction kvs as [|kv kvs IH]; intros links Hk Hl; simpl; [done |].
  apply IH.
  - intros kv' Hkv'. apply Hk. by right.
  - assert (∀ ds links', (∀ d, d ∈ ds → d ∈ snd kv) → traced content links' →
              traced content (foldl (add_domain content) links' ds)) as Hin.
    { induction ds as [|d ds IHd]; intros links' Hds Hl'; simpl; [done |].
      apply IHd.
      - intros d' Hd'. apply Hds. by right.
      - apply add_domain_traced; [| done].
        apply list_elem_of_In, in_flat_map. exists kv. split.
        + apply list_elem_of_In, Hk. by left.
        + apply list_elem_of_In, Hds. by left. }
    by apply Hin.
Qed.

Lemma _extract_links_traced content : traced content (_extract_links content).
Proof.
  unfold _extract_links, _extract_s_links.
  eapply update_traced; [apply usable_protocol | done |].
  { right. by left. }
  eapply update_traced; [apply usable_protocol | done |].
  { by left. }
  apply foldl_domains_traced; [done |].
  apply foldl_add_pattern_traced; [apply usable_link_patterns |].
  apply foldl_add_pattern_traced; [apply usable_s_link_patterns |].
  intros l Hl. by apply not_elem_of_empty in Hl.
Qed.

(** X1: whatever the text, every link the engine returns is a stretch of
    that text, as it stands there, and is not empty. *)
Theorem extracted_links_are_stretches_of_text (content l : text) :
  l ∈ _extract_links content →
  l ≠ [] ∧ ∃ pre post, content = pre ++ l ++ post.
Proof.
  intros Hl. destruct (_extract_links_traced content l Hl)
    as (g & _ & _ & Hw & Hne).
  done.
Qed.

End OriginFacts.

(** ** What the links of the engine hold *)

Section ShapeFacts.
Context `{Unicode}.
Import Re Extract Grammar Shape Stored.

Lemma colon_has_no_case d : Chr.ci_eq 58 d = true → d = 58%N.
Proof.
  unfold Chr.ci_eq. intros Hd. apply N.eqb_eq in Hd.
  change (Chr.fold_case 58) with 58%N in Hd. unfold Chr.fold_case in Hd.
  destruct (Chr.is_upper d) eqn:E1.
  { unfold Chr.is_upper, Chr.in_range in E1.
    apply andb_true_iff in E1 as [?%N.leb_le ?%N.leb_le]. lia. }
  destruct (d =? 8490)%N; [discriminate |].
  destruct (d =? 383)%N; [discriminate |].
  destruct ((d =? 304)%N || (d =? 305)%N); [discriminate | done].
Qed.

Lemma demands_matches c r p :
  (∀ d, Chr.ci_eq c d = true → d = c) →
  demands c r = true → matches r p → c ∈ p.
Proof.
  intros Hc Hd Hm. induction Hm; simpl in Hd; try discriminate.
  - apply N.eqb_eq in Hd. subst. rewrite (Hc d) by done. by left.
  - apply elem_of_app. apply orb_true_iff in Hd as [Hd | Hd]; auto.
  - apply elem_of_app. auto.
  - apply elem_of_app. auto.
  - auto.
Qed.

Lemma grammars_demand_colon g : g ∈ grammars → demands 58 g = true.
Proof.
  intros Hg. apply list_elem_of_In in Hg. revert g Hg.
  apply forallb_forall. vm_compute. reflexivity.
Qed.

(** X2: a text that holds no colon yields no link at all. *)
Theorem no_colon_no_links (content : text) :
  58%N ∉ content → _extract_links content = ∅.
Proof.
  intros Hc. apply set_eq. intros l. split; [| set_solver].
  intros Hl. exfalso. apply Hc.
  destruct (_extract_links_traced content l Hl)
    as (g & Hg & Hm & (pre & post & ->) & _).
  apply elem_of_app. right. apply elem_of_app. left.
  eapply demands_matches; [apply colon_has_no_case | | done].
  by apply grammars_demand_colon.
Qed.

(** What holds of every white-space character holds of any. *)
Lemma spaces_forall (P : N → bool) :
  forallb P Chr.spaces = true → ∀ c, Chr.is_space c = true → P c = true.
Proof.
  intros HP c Hc. unfold Chr.is_space in Hc.
  apply existsb_exists in Hc as (x & Hx & ->%N.eqb_eq).
  by eapply forallb_forall in HP.
Qed.

Lemma space_fold_case d : Chr.is_space d = true → Chr.fold_case d = d.
Proof.
  intros Hd. apply N.eqb_eq.
  by apply (spaces_forall (λ d, (Chr.fold_case d =? d)%N)).
Qed.

Lemma space_upcase d : Chr.is_space d = true → Chr.upcase d = d.
Proof.
  intros Hd. apply N.eqb_eq.
  by apply (spaces_forall (λ d, (Chr.upcase d =? d)%N)).
Qed.

Section Disjoint.
Hypothesis word_not_space : ∀ c, uni_word c = true → Chr.is_space c = false.

Lemma is_word_not_space c : Chr.is_word c = true → Chr.is_space c = false.
Proof.
  intros Hw. destruct (Chr.is_space c) eqn:Hs; [| done].
  unfold Chr.is_word in Hw. destruct (c <? 128)%N eqn:E.
  - pose proof (spaces_forall
      (λ c, negb ((c <? 128)%N
                  && (Chr.is_digit c || Chr.is_upper c || Chr.is_lower c
                      || (c =? 95)%N))) eq_refl c Hs) as Hn.
    simpl in Hn. rewrite E, Hw in Hn. done.
  - by rewrite word_not_space in Hs.
Qed.

Lemma item_spaceless_sound i d :
  item_spaceless i = true → item_match i d = true → Chr.is_space d = false.
Proof.
  intros Hi Hm. destruct (Chr.is_space d) eqn:Hs; [| done]. exfalso.
  destruct i as [c|lo hi| |]; cbn [item_spaceless item_match] in Hi, Hm.
  - unfold Chr.ci_eq in Hm. apply N.eqb_eq in Hm.
    rewrite (space_fold_case d Hs) in Hm. rewrite Hm, Hs in Hi. done.
  - rewrite (space_fold_case d Hs), (space_upcase d Hs), !orb_diag in Hm.
    pose proof (spaces_forall _ Hi d Hs) as Hn. cbv beta in Hn.
    by rewrite Hm in Hn.
  - apply is_word_not_space in Hm. congruence.
  - done.
Qed.

Lemma spaceless_matches r p :
  spaceless r = true → matches r p →
  Forall (λ c, Chr.is_space c = false) p.
Proof.
  intros Hr Hm. induction Hm; simpl in Hr; try done.
  - constructor; [| done]. destruct (Chr.is_space d) eqn:Hs; [| done].
    unfold Chr.ci_eq in H0. apply N.eqb_eq in H0.
    rewrite (space_fold_case d Hs) in H0. rewrite H0, Hs in Hr. done.
  - constructor; [| done]. unfold class_match in H0. destruct neg.
    + destruct (Chr.is_space d) eqn:Hs; [| done]. exfalso.
      apply existsb_exists in Hr as (i & Hi & Hsp).
      destruct i; try discriminate.
      simpl in H0. apply negb_true_iff in H0.
      assert (existsb (λ i, item_match i d) items = true) as Hex.
      { apply existsb_exists. exists CSpace. split; [done | done]. }
      congruence.
    + simpl in H0. apply existsb_exists in H0 as (i & Hi & Hmi).
      eapply item_spaceless_sound; [| done].
      by eapply forallb_forall in Hr.
  - apply andb_true_iff in Hr as [H1 H2]. apply Forall_app. auto.
  - auto.
  - apply Forall_app. auto.
  - apply Forall_app. auto.
  - apply Forall_app. auto.
  - auto.
Qed.

Lemma grammars_spaceless g :
  g ∈ grammars → g = p_ed2k ∨ spaceless g = true.
Proof.
  assert (forallb spaceless
            (s_link_patterns ++ take 16 link_patterns
             ++ (fallback_pattern <$> fallback_domains)
             ++ [magnet_pattern; ed2k_pattern]) = true) as Hall
    by (vm_compute; reflexivity).
  intros Hg. unfold grammars in Hg.
  change link_patterns with (take 16 link_patterns ++ [p_ed2k]) in Hg.
  assert (g = p_ed2k
          ∨ g ∈ s_link_patterns ++ take 16 link_patterns
                ++ (fallback_pattern <$> fallback_domains)
                ++ [magnet_pattern; ed2k_pattern]) as [-> | Hin].
  { rewrite !elem_of_app in Hg. rewrite !elem_of_app.
    destruct Hg as [?|[[?|Hg]|[?|?]]]; auto.
    apply list_elem_of_singleton in Hg. auto. }
  - by left.
  - right. apply list_elem_of_In in Hin. clear Hg. revert g Hin.
    by apply forallb_forall.
Qed.

Lemma lstrip_nonspace l :
  Forall (λ c, Chr.is_space c = false) l → lstrip l = l.
Proof. intros Hl. destruct Hl as [|c l Hc Hl]; simpl; [done |]. by rewrite Hc. Qed.

Lemma nonspace_storable l :
  l ≠ [] → Forall (λ c, Chr.is_space c = false) l → storable l.
Proof.
  intros Hne Hl. split; [done |]. split.
  - unfold strip, rstrip. rewrite (lstrip_nonspace (rev l)) by by apply Forall_rev.
    rewrite rev_involutive. by apply lstrip_nonspace.
  - eapply Forall_impl; [apply Hl |]. intros c Hc. split; intros ->; done.
Qed.

(** X3: as long as no word character is white space, every link the
    engine returns either matches the curated ed2k pattern or holds no
    white space at all, and then it is a link that survives a line of the
    master file. *)
Theorem extracted_links_hold_no_space_but_ed2k (content l : text) :
  l ∈ _extract_links content →
  matches p_ed2k l
  ∨ (Forall (λ c, Chr.is_space c = false) l ∧ storable l).
Proof.
  intros Hl. destruct (_extract_links_traced content l Hl)
    as (g & Hg & Hm & _ & Hne).
  destruct (grammars_spaceless g Hg) as [-> | Hs]; [by left |].
  right. pose proof (spaceless_matches g l Hs Hm) as Hf.
  split; [done | by apply nonspace_storable].
Qed.

End Disjoint.

Lemma add_match_grows links i : links ⊆ add_match links i.
Proof.
  destruct i as [s|gs]; simpl; [set_solver |].
  destruct (find _ gs); set_solver.
Qed.

Lemma add_pattern_grows content links r : links ⊆ add_pattern content links r.
Proof.
  unfold add_pattern. revert links.
  induction (findall r content) as [|i items IH]; intros links; simpl; [done |].
  etrans; [apply add_match_grows | apply IH].
Qed.

Lemma update_grows : ∀ items links, links ⊆ update links items.
Proof.
  unfold update. induction items as [|i items IH]; intros links; simpl; [done |].
  etrans; [| apply IH]. destruct i; set_solver.
Qed.

Lemma add_domain_grows content links d : links ⊆ add_domain content links d.
Proof.
  unfold add_domain.
  destruct (_ || _); [done |]. destruct (contains (str "/s/") d); [done |].
  destruct (existsb _ d); [destruct (contains d content); [| done] |];
    apply update_grows.
Qed.

Lemma foldl_grows {A} (f : gset text → A → gset text) :
  (∀ links a, links ⊆ f links a) →
  ∀ l links, links ⊆ foldl f links l.
Proof.
  intros Hf. induction l as [|a l IH]; intros links; simpl; [done |].
  etrans; [apply Hf | apply IH].
Qed.

(** X14: the later passes only add: every link of the [/s/] pass is among
    the links the engine returns. *)
Theorem s_links_are_kept (content : text) :
  _extract_s_links content ⊆ _extract_links content.
Proof.
  unfold _extract_links.
  etrans; [| apply update_grows]. etrans; [| apply update_grows].
  etrans; [| apply foldl_grows].
  - apply foldl_grows. apply add_pattern_grows.
  - intros links kv. apply foldl_grows. apply add_domain_grows.
Qed.

End ShapeFacts.

(** ** More on fetching one feed *)

Section RetryFacts.
Context `{Unicode}.
Import Crawler Verdict Trace.

Lemma jitters_app a b : jitters (a ++ b) = jitters a + jitters b.
Proof. induction a as [|[lo hi|n] a IH]; simpl; lia. Qed.

Lemma fixed_sleep_app a b : fixed_sleep (a ++ b) = fixed_sleep a + fixed_sleep b.
Proof. induction a as [|[lo hi|n] a IH]; simpl; lia. Qed.

Section OneFeed.
Variable crawled : gset text.
Variable fetch : nat → attempt_outcome.
Variable feed_url : text.
Variable retry_count : nat.

Lemma verdict_succeeds es : ∀ d attempt fuel,
  attempt + d < attempt + fuel →
  fetch (attempt + d) = Parsed es →
  (∀ j, attempt ≤ j < attempt + d →
     ∃ msg, fetch j = Raises msg ∨ fetch j = Bozo msg) →
  verdict_from fetch fuel attempt = Succeeded es.
Proof.
  induction d as [|d IH]; intros attempt fuel Hlt Hk Hfail.
  - destruct fuel as [|fuel]; [lia |]. simpl.
    rewrite Nat.add_0_r in Hk. by rewrite Hk.
  - destruct fuel as [|[|fuel]]; [lia | lia |].
    assert (verdict_from fetch (S fuel) (S attempt) = Succeeded es) as Hrest.
    { apply (IH (S attempt) (S fuel)); [lia | |].
      - by replace (S attempt + d) with (attempt + S d) by lia.
      - intros j Hj. apply Hfail. lia. }
    destruct (Hfail attempt) as [msg [Hm | Hm]]; [lia | |];
      simpl; rewrite Hm; exact Hrest.
Qed.

Lemma schedule_jitters_success es : ∀ d k n,
  d < k →
  fetch (pred n + d) = Parsed es →
  (∀ j, pred n ≤ j < pred n + d →
     ∃ msg, fetch j = Raises msg ∨ fetch j = Bozo msg) →
  0 < n →
  jitters (schedule fetch retry_count k n) = S d.
Proof.
  induction d as [|d IH]; intros k n Hlt Hk Hfail Hn.
  - destruct k as [|k]; [lia |]. simpl.
    rewrite Nat.add_0_r in Hk. by rewrite Hk.
  - destruct k as [|k]; [lia |].
    assert (jitters (schedule fetch retry_count k (S n)) = S d) as Hrest.
    { apply IH; [lia | | | lia].
      - by replace (pred (S n) + d) with (pred n + S d) by lia.
      - intros j Hj. apply Hfail. lia. }
    destruct (Hfail (pred n)) as [msg [Hm | Hm]]; [lia | |];
      simpl; rewrite Hm, !jitters_app, Hrest;
      destruct (contains remote_closed msg);
      destruct (decide (n = retry_count)); simpl; lia.
Qed.

(** X4: a feed whose attempt number [k + 1] is within the budget and
    parses, after [k] attempts that failed in either way, is fetched with
    success: the fetch returns the links of that attempt that the store
    does not hold, the feed is taken out of the failed set, and exactly
    [k + 1] attempts are made. *)
Theorem success_after_failures (failed : gset text) (k : nat)
    (es : list entry) :
  k < retry_count →
  fetch k = Parsed es →
  (∀ j, j < k → ∃ msg, fetch j = Raises msg ∨ fetch j = Bozo msg) →
  let r := _crawl_single_feed crawled fetch feed_url retry_count failed in
  result r = Return (links_in es ∖ crawled)
  ∧ failed_after r = failed ∖ {[feed_url]}
  ∧ jitters (slept r) = S k.
Proof.
  intros Hk Hp Hfail r.
  pose proof (attempts_verdict crawled fetch feed_url retry_count retry_count
                0 ∅ failed [] eq_refl) as Hv.
  cbv zeta in Hv.
  rewrite (verdict_succeeds es k 0 retry_count) in Hv;
    [| lia | done | intros j Hj; apply Hfail; lia].
  destruct Hv as [Hres Hfa]. unfold r, _crawl_single_feed.
  split; [| split; [done |]].
  - rewrite Hres. f_equal. set_solver.
  - rewrite attempts_slept by done. simpl.
    apply (schedule_jitters_success es k retry_count 1);
      [done | done | | lia].
    intros j Hj. apply Hfail. simpl in Hj. lia.
Qed.

Lemma schedule_bounds : ∀ k n,
  n + k = S retry_count →
  jitters (schedule fetch retry_count k n) ≤ k
  ∧ fixed_sleep (schedule fetch retry_count k n)
    + Nat.min n retry_count * (Nat.min n retry_count - 1)
    ≤ 5 * k + retry_count * (retry_count - 1).
Proof.
  induction k as [|k IH]; intros n Hn.
  - simpl. split; [lia |]. rewrite Nat.min_r by lia. lia.
  - destruct (IH (S n)) as [Hj Hf]; [lia |].
    assert (n * (n - 1) + 2 * n = S n * (S n - 1)) as Hsq
      by (destruct n; simpl; lia).
    cbn [schedule jitters fixed_sleep].
    destruct (decide (n = retry_count)) as [Heq | Hne].
    + rewrite Nat.min_l by lia. rewrite Nat.min_r in Hf by lia.
      destruct (fetch (pred n)) as [msg|msg|es|msg]; simpl;
        rewrite ?jitters_app, ?fixed_sleep_app;
        try destruct (contains remote_closed msg); simpl; lia.
    + rewrite Nat.min_l by lia. rewrite Nat.min_l in Hf by lia.
      assert (n * (n - 1) ≤ retry_count * (retry_count - 1)) as Hmono.
      { apply Nat.mul_le_mono; lia. }
      destruct (fetch (pred n)) as [msg|msg|es|msg]; simpl;
        rewrite ?jitters_app, ?fixed_sleep_app;
        try destruct (contains remote_closed msg); simpl; lia.
Qed.

(** X5: whatever the attempts meet, a fetch makes no more attempts than
    [retry_count], and the fixed sleeps between them (cool-downs and
    back-offs, the jitter apart) add up to no more than
    [5 * retry_count + retry_count * (retry_count - 1)] seconds: 21 for the
    three attempts of [crawl_rss_feed]. *)
Theorem fetch_is_bounded (failed : gset text) :
  let r := _crawl_single_feed crawled fetch feed_url retry_count failed in
  jitters (slept r) ≤ retry_count
  ∧ fixed_sleep (slept r)
    ≤ 5 * retry_count + retry_count * (retry_count - 1).
Proof.
  intros r. unfold r, _crawl_single_feed. rewrite attempts_slept by done.
  simpl. destruct (schedule_bounds retry_count 1) as [Hj Hf]; [lia |].
  split; [done |]. lia.
Qed.

(** X6: a fetch touches the failed set for its own feed only, and neither
    what it returns nor how it sleeps depends on the failed set it is
    given. *)
Theorem fetch_touches_only_its_feed (failed failed' : gset text) (g : text) :
  g ≠ feed_url →
  let r := _crawl_single_feed crawled fetch feed_url retry_count failed in
  let r' := _crawl_single_feed crawled fetch feed_url retry_count failed' in
  (g ∈ failed_after r ↔ g ∈ failed)
  ∧ result r = result r'
  ∧ slept r = slept r'.
Proof.
  intros Hg r r'.
  pose proof (attempts_verdict crawled fetch feed_url retry_count retry_count
                0 ∅ failed [] eq_refl) as Hv.
  pose proof (attempts_verdict crawled fetch feed_url retry_count retry_count
                0 ∅ failed' [] eq_refl) as Hv'.
  cbv zeta in Hv, Hv'. unfold r, r', _crawl_single_feed.
  split; [| split].
  - destruct (verdict_from fetch retry_count 0) as [es|[|]|msg];
      destruct Hv as [_ ->]; set_solver.
  - destruct (verdict_from fetch retry_count 0) as [es|b|msg];
      destruct Hv as [-> _]; destruct Hv' as [-> _]; done.
  - by rewrite !attempts_slept.
Qed.

End OneFeed.

Lemma within_lines (f : text) (fs : list text) :
  f ∈ fs → Shape.within (line f) (concat (line <$> fs)).
Proof.
  intros Hf. apply list_elem_of_split in Hf as (l1 & l2 & ->).
  exists (concat (line <$> l1)), (concat (line <$> l2)).
  by rewrite fmap_app, concat_app.
Qed.

Lemma within_app_r (a b l : text) :
  Shape.within l b → Shape.within l (a ++ b).
Proof.
  intros (pre & post & ->). exists (a ++ pre), post. by rewrite <- app_assoc.
Qed.

(** X13: a feed of the cycle whose three attempts fail, the last of them
    with an exception, is in the failed set after the cycle, and the cycle
    appends one section to the failure log, which holds the line of that
    feed. *)
Theorem raised_exhaustion_is_logged (env : cycle_env) (w : crawler * disk)
    (f msg : text) :
  f ∈ completion env →
  (∀ j, j < 2 →
     ∃ m, fetches env f j = Raises m ∨ fetches env f j = Bozo m) →
  fetches env f 2 = Raises msg →
  let r := run_cycle env w in
  let section := failure_section (now_log env) (failed_feeds (fst (fst r))) in
  f ∈ failed_feeds (fst (fst r))
  ∧ failed_log (snd (fst r)) = append section (failed_log (snd w))
  ∧ Shape.within (line f) section.
Proof.
  intros Hf Hfail Hlast r section.
  assert (verdict_of (fetches env f) 3 = Exhausted true) as Hv.
  { unfold verdict_of. simpl.
    destruct (Hfail 0) as [m0 [H0 | H0]]; [lia | |];
      destruct (Hfail 1) as [m1 [H1 | H1]]; try lia;
      by rewrite H0, H1, Hlast. }
  assert (f ∈ failed_feeds (fst (fst r))) as Hin.
  { unfold r. rewrite run_cycle_failed_elem.
    destruct (decide (f ∈ completion env)); [| done].
    rewrite marked_self, Hv. done. }
  split; [done |]. split.
  - unfold r, section. rewrite run_cycle_failed_log.
    destruct (decide (failed_feeds (fst (fst (run_cycle env w))) = ∅)) as [He|];
      [| done].
    unfold r in Hin. rewrite He in Hin. set_solver.
  - unfold section, failure_section.
    apply within_app_r, within_app_r, within_lines. by apply elem_of_elements.
Qed.

End RetryFacts.

(** ** More on cycles *)

Section RunFacts.
Context `{Unicode}.
Import File Crawler Verdict Stored Trace.


Lemma foldl_append_some (ls : list text) : ∀ f : option fdata,
  is_Some f → is_Some (foldl (λ f link, append (encode (line link)) f) f ls).
Proof.
  induction ls as [|l ls IH]; intros f Hf; simpl; [done |].
  apply IH. by eexists.
Qed.

Lemma run_cycle_master_some env w :
  is_Some (all_links_file (snd w)) →
  is_Some (all_links_file (snd (fst (run_cycle env w)))).
Proof.
  intros Hs. unfold run_cycle. cbn [fst snd].
  assert (∀ t1 t2 (S : gset text) (w' : crawler * disk),
            is_Some (all_links_file (snd w')) →
            is_Some (all_links_file (snd (_save_links t1 t2 S w')))) as Hsave.
  { intros t1 t2 S w' Hw'. unfold _save_links.
    destruct (decide (S = ∅)); [done |]. simpl. by apply foldl_append_some. }
  destruct (decide (failed_feeds (fst (_save_links _ _ _ _)) = ∅));
    cbn [all_links_file]; by apply Hsave.
Qed.

(** X8: over any number of cycles the store only grows: no link leaves
    the set in memory, what the master file and the failure log held stays
    at their front, and a master file that exists goes on existing. *)
Theorem store_only_grows (envs : list cycle_env) (w : crawler * disk) :
  let w' := run envs w in
  crawled_links (fst w) ⊆ crawled_links (fst w')
  ∧ (∃ more, default [] (all_links_file (snd w'))
             = default [] (all_links_file (snd w)) ++ more)
  ∧ (∃ more, default [] (failed_log (snd w'))
             = default [] (failed_log (snd w)) ++ more)
  ∧ (is_Some (all_links_file (snd w)) → is_Some (all_links_file (snd w'))).
Proof.
  revert w. induction envs as [|env envs IH]; intros w; cbv zeta.
  - split; [done |]. split; [exists []; by rewrite app_nil_r |].
    split; [exists []; by rewrite app_nil_r | done].
  - rewrite run_cons.
    destruct (IH (fst (run_cycle env w))) as (Hc & [m1 Hm] & [m2 Hl] & Hs).
    split; [| split; [| split]].
    + etrans; [| apply Hc]. rewrite run_cycle_crawled. set_solver.
    + eexists. rewrite Hm, run_cycle_master, <- app_assoc. reflexivity.
    + destruct (run_cycle_log_grows env w) as [m0 H0].
      eexists. rewrite Hl, H0, <- app_assoc. reflexivity.
    + intros Hw. by apply Hs, run_cycle_master_some.
Qed.

Lemma run_cycle_master_file env w :
  all_links_file (snd (fst (run_cycle env w)))
  = all_links_file (snd (_save_links (now_name env) (now_header env)
                                     (snd (run_cycle env w)) w)).
Proof.
  unfold run_cycle. cbn [fst snd].
  destruct (decide (failed_feeds (fst (_save_links _ _ _ _)) = ∅));
    cbn [all_links_file]; unfold _save_links;
    by destruct (decide (_ = ∅)).
Qed.

Lemma run_cycle_keeps_step env w :
  whole_lines (all_links_file (snd w)) →
  stored (all_links_file (snd w)) = crawled_links (fst w) →
  (∀ l, l ∈ cycle_found env → storable l) →
  whole_lines (all_links_file (snd (fst (run_cycle env w))))
  ∧ stored (all_links_file (snd (fst (run_cycle env w))))
    = crawled_links (fst (fst (run_cycle env w))).
Proof.
  intros Hw Hst Hf. rewrite run_cycle_master_file, run_cycle_crawled.
  destruct (save_stored (now_name env) (now_header env)
              (snd (run_cycle env w)) w Hw) as [Hw' Hst'].
  { intros l Hl. apply Hf. rewrite run_cycle_new in Hl. set_solver. }
  split; [done |]. by rewrite Hst', Hst.
Qed.

(** X9: started on a master file that reads in whole lines, and finding
    only links that survive a line of it, the crawler keeps file and memory
    in step through any number of cycles: a crawler built anew on the disk
    as it then is knows exactly the links the running one knows. *)
Theorem restart_knows_the_same_links (feeds feeds' : list text) (d : disk)
    (envs : list cycle_env) :
  whole_lines (all_links_file d) →
  (∀ env l, env ∈ envs → l ∈ cycle_found env → storable l) →
  let w := run envs (fst (init feeds d), d) in
  crawled_links (fst (init feeds' (snd w))) = crawled_links (fst w)
  ∧ whole_lines (all_links_file (snd w)).
Proof.
  intros Hd Hs w.
  assert (∀ (es : list cycle_env) (w0 : crawler * disk),
            whole_lines (all_links_file (snd w0)) →
            stored (all_links_file (snd w0)) = crawled_links (fst w0) →
            (∀ env l, env ∈ es → l ∈ cycle_found env → storable l) →
            whole_lines (all_links_file (snd (run es w0)))
            ∧ stored (all_links_file (snd (run es w0)))
              = crawled_links (fst (run es w0))) as Hgen.
  { induction es as [|env es IH]; intros w0 Hw0 Hst0 Hes; [done |].
    rewrite run_cons.
    destruct (run_cycle_keeps_step env w0 Hw0 Hst0) as [Hw1 Hst1].
    { intros l Hl. apply (Hes env); [by left | done]. }
    apply IH; [done | done |].
    intros env' l Henv' Hl. apply (Hes env'); [by right | done]. }
  destruct (Hgen envs (fst (init feeds d), d) Hd eq_refl Hs) as [Hw Hst].
  split; [| done]. exact Hst.
Qed.

(** X11: a cycle that finds no new link and ends with nobody in the failed
    set writes nothing: the disk is as it was before, and so is the set in
    memory. *)
Theorem quiet_cycle_writes_nothing (env : cycle_env) (w : crawler * disk) :
  snd (run_cycle env w) = ∅ →
  failed_feeds (fst (fst (run_cycle env w))) = ∅ →
  snd (fst (run_cycle env w)) = snd w
  ∧ crawled_links (fst (fst (run_cycle env w))) = crawled_links (fst w).
Proof.
  intros Hnew Hfailed. split.
  - unfold run_cycle in *. cbn [fst snd] in *. rewrite Hfailed.
    destruct (decide ((∅ : gset text) = ∅)); [| done].
    rewrite Hnew. unfold _save_links.
    by destruct (decide ((∅ : gset text) = ∅)).
  - rewrite run_cycle_crawled, Hnew. set_solver.
Qed.

End RunFacts.

(** ** More on the link store *)

Section LoadFacts.
Import File Crawler Stored Trace.

Lemma translate_leaves_no_cr : ∀ s b,
  Forall (λ c, is_cr c = false) (translate b s).
Proof.
  induction s as [|c s IH]; intros b; simpl; [done |].
  destruct (is_cr c) eqn:E; [by constructor |].
  destruct (is_lf c && b); [done | by constructor].
Qed.

Lemma is_lf_Ch c : is_lf c = true → c = Ch 10.
Proof. destruct c as [c|]; simpl; [| done]. by intros ->%N.eqb_eq. Qed.

(** Every line read is a body without line breaks, with or without a
    line feed after it. *)
Lemma split_lines_shape : ∀ s cur,
  Forall (λ c, is_cr c = false) s →
  Forall (λ c, is_cr c = false ∧ is_lf c = false) cur →
  Forall (λ ln, ∃ body,
            Forall (λ c, is_cr c = false ∧ is_lf c = false) body
            ∧ (ln = body ∨ ln = body ++ [Ch 10]))
         (split_lines cur s).
Proof.
  induction s as [|c s IH]; intros cur Hs Hcur; simpl.
  - destruct cur as [|c0 cur0] eqn:E; [done |]. rewrite <- E in *.
    constructor; [| done]. exists (rev cur). split; [by apply Forall_rev | by left].
  - apply Forall_cons in Hs as [Hc Hs]. destruct (is_lf c) eqn:El.
    + constructor; [| by apply IH].
      exists (rev cur). split; [by apply Forall_rev |]. right.
      by rewrite (is_lf_Ch c El).
    + apply IH; [done |]. by constructor.
Qed.

Lemma decode_Some l : ∀ t, decode l = Some t → l = encode t.
Proof.
  induction l as [|c l IH]; intros t Ht; simpl in Ht.
  - by injection Ht as <-.
  - destruct c as [c|]; [| done].
    destruct (decode l) as [t'|] eqn:E; [| done].
    injection Ht as <-. unfold encode. rewrite fmap_cons.
    f_equal. by apply IH.
Qed.

Lemma lstrip_suffix u : ∃ pre, u = pre ++ lstrip u.
Proof.
  induction u as [|c u [pre IH]]; simpl; [by exists [] |].
  destruct (Chr.is_space c); [| by exists []].
  exists (c :: pre). simpl. by rewrite <- IH.
Qed.

Lemma lstrip_head u c v : lstrip u = c :: v → Chr.is_space c = false.
Proof.
  induction u as [|d u IH]; simpl; [done |].
  destruct (Chr.is_space d) eqn:E; [done |]. by intros [= <- _].
Qed.

Lemma lstrip_fixed u :
  (∀ c v, u = c :: v → Chr.is_space c = false) → lstrip u = u.
Proof.
  destruct u as [|c v]; intros Hu; simpl; [done |].
  by rewrite (Hu c v eq_refl).
Qed.

Lemma strip_idempotent t : strip (strip t) = strip t.
Proof.
  unfold strip, rstrip.
  destruct (lstrip_suffix (rev (lstrip (rev t)))) as [pre Hpre].
  set (b := lstrip (rev t)) in *. set (w := lstrip (rev b)) in *.
  assert (lstrip (rev w) = rev w) as Hrw.
  { apply lstrip_fixed. intros c v Hcv.
    assert (b = rev w ++ rev pre) as Hb.
    { rewrite <- rev_app_distr, <- Hpre. by rewrite rev_involutive. }
    rewrite Hcv in Hb. simpl in Hb. by apply (lstrip_head (rev t) c _ Hb). }
  rewrite Hrw, rev_involutive.
  apply lstrip_fixed. intros c v Hcv. by apply (lstrip_head (rev b) c v).
Qed.

Lemma lstrip_Forall (P : N → Prop) u : Forall P u → Forall P (lstrip u).
Proof.
  intros Hu. destruct (lstrip_suffix u) as [pre Hpre].
  rewrite Hpre in Hu. by apply Forall_app in Hu as [_ ?].
Qed.

Lemma strip_Forall (P : N → Prop) u : Forall P u → Forall P (strip u).
Proof.
  intros Hu. unfold strip, rstrip.
  by apply lstrip_Forall, Forall_rev, lstrip_Forall, Forall_rev.
Qed.

Lemma line_storable ln t :
  (∃ body, Forall (λ c, is_cr c = false ∧ is_lf c = false) body
           ∧ (ln = body ∨ ln = body ++ [Ch 10])) →
  decode ln = Some t → strip t ≠ [] → storable (strip t).
Proof.
  intros (body & Hbody & Hln) Ht Hne. apply decode_Some in Ht.
  assert (∃ tb, Forall (λ c, c ≠ 10%N ∧ c ≠ 13%N) tb ∧ strip t = strip tb)
    as (tb & Htb & Hst).
  { assert (∀ tb, encode tb = body → Forall (λ c, c ≠ 10%N ∧ c ≠ 13%N) tb)
      as Hplain.
    { intros tb <-. unfold encode in Hbody.
      apply Forall_fmap in Hbody. eapply Forall_impl; [apply Hbody |].
      intros c [Hcr Hlf]. simpl in *. split; by apply N.eqb_neq. }
    destruct Hln as [-> | ->].
    - exists t. split; [by apply Hplain | done].
    - unfold encode in Ht. symmetry in Ht.
      apply fmap_app_inv in Ht as (tb & t2 & Hb & H2 & ->).
      destruct t2 as [|c [|??]]; try done. injection H2 as Hc. subst c.
      exists tb. split; [by apply Hplain |]. apply (strip_line tb). }
  rewrite Hst in *. split; [done |]. split; [apply strip_idempotent |].
  by apply strip_Forall.
Qed.

Lemma load_lines_storable : ∀ ls crawled l,
  Forall (λ ln, ∃ body,
            Forall (λ c, is_cr c = false ∧ is_lf c = false) body
            ∧ (ln = body ∨ ln = body ++ [Ch 10])) ls →
  l ∈ fst (load_lines ls crawled) → l ∈ crawled ∨ storable l.
Proof.
  induction ls as [|ln ls IH]; intros crawled l Hls Hl; simpl in Hl; [by left |].
  apply Forall_cons in Hls as [Hln Hls].
  destruct (decode ln) as [t|] eqn:Ht; [| by left].
  destruct (strip t) as [|c v] eqn:Hs; [by apply IH |].
  destruct (IH _ _ Hls Hl) as [Hin | Hst]; [| by right].
  apply elem_of_union in Hin as [->%elem_of_singleton | Hin]; [| by left].
  right. rewrite <- Hs. apply (line_storable ln t); [done | done |].
  by rewrite Hs.
Qed.

Lemma load_lines_keeps : ∀ ls (crawled : gset text),
  crawled ⊆ fst (load_lines ls crawled).
Proof.
  induction ls as [|ln ls IH]; intros crawled; simpl; [done |].
  destruct (decode ln) as [t|]; [| done].
  etrans; [| apply IH]. destruct (strip t); set_solver.
Qed.

(** X10: whatever the master file holds, readable or not, every link a
    load adds to the set is one that survives a line of the file: not
    empty, without line break, without white space at either end; and the
    load takes nothing out of the set. *)
Theorem loaded_links_are_storable (file : option fdata) (crawled : gset text)
    (l : text) :
  l ∈ fst (_load_existing_links file crawled) →
  (l ∈ crawled ∨ storable l)
  ∧ crawled ⊆ fst (_load_existing_links file crawled).
Proof.
  intros Hl. destruct file as [s|]; simpl in *; [| by split; [left |]].
  split; [| apply load_lines_keeps].
  eapply load_lines_storable; [| done].
  unfold readlines. apply split_lines_shape; [| done].
  apply translate_leaves_no_cr.
Qed.

Lemma padded_two n :
  n < 100 →
  padded 2 n = [(48 + N.of_nat (n / 10))%N; (48 + N.of_nat (n mod 10))%N].
Proof.
  intros Hn.
  assert (forallb (λ n, bool_decide
            (padded 2 n
             = [(48 + N.of_nat (n / 10))%N; (48 + N.of_nat (n mod 10))%N]))
            (seq 0 100) = true) as Hall by (vm_compute; reflexivity).
  eapply forallb_forall in Hall; [by apply bool_decide_eq_true in Hall |].
  apply in_seq. lia.
Qed.

Lemma padded_two_inj a b :
  a < 100 → b < 100 → padded 2 a = padded 2 b → a = b.
Proof.
  intros Ha Hb. rewrite !padded_two by done. intros Heq.
  assert ((48 + N.of_nat (a / 10))%N = (48 + N.of_nat (b / 10))%N) as H1
    by congruence.
  assert ((48 + N.of_nat (a mod 10))%N = (48 + N.of_nat (b mod 10))%N) as H2
    by congruence.
  rewrite (Nat.div_mod_eq a 10), (Nat.div_mod_eq b 10). lia.
Qed.

(** X12: for readings of the clock within the calendar, two snapshot
    names are the same exactly when month, day, hour and minute are the
    same; the year and the second play no part.  A name has twelve
    characters. *)
Theorem snapshot_name_tells_the_minute (t1 t2 : datetime) :
  on_calendar t1 → on_calendar t2 →
  (_get_timestamp_filename t1 = _get_timestamp_filename t2
   ↔ month t1 = month t2 ∧ day t1 = day t2
     ∧ hour t1 = hour t2 ∧ minute t1 = minute t2)
  ∧ length (_get_timestamp_filename t1) = 12.
Proof.
  intros (Hm1 & Hd1 & Hh1 & Hi1) (Hm2 & Hd2 & Hh2 & Hi2).
  unfold _get_timestamp_filename. split; [split |].
  - intros Heq.
    assert (∀ a b (x y : text),
              length a = 2 → length b = 2 → a ++ x = b ++ y →
              a = b ∧ x = y) as Hcut.
    { intros a b x y Hla Hlb Hab. by apply app_inj_1; [congruence |]. }
    assert (∀ n, n < 100 → length (padded 2 n) = 2) as Hlen.
    { intros n Hn. by rewrite padded_two. }
    apply Hcut in Heq as [A Heq]; [| apply Hlen; lia ..].
    apply Hcut in Heq as [B Heq]; [| apply Hlen; lia ..].
    apply Hcut in Heq as [C Heq]; [| apply Hlen; lia ..].
    apply Hcut in Heq as [D _]; [| apply Hlen; lia ..].
    repeat split; apply padded_two_inj; (done || lia).
  - by intros (-> & -> & -> & ->).
  - rewrite !(padded_two (month _)), !(padded_two (day _)),
      !(padded_two (hour _)), !(padded_two (minute _)) by lia.
    reflexivity.
Qed.

End LoadFacts.

(** ** Further worked cases *)

Section WorkedFurther.
Import Re Extract Grammar Shape File Crawler Verdict Stored Trace Sample.

Lemma cjk_words_are_not_spaces c :
  @uni_word cjk_table c = true → Chr.is_space c = false.
Proof.
  intros Hc. destruct (Chr.is_space c) eqn:E; [| done].
  pose proof (spaces_forall (λ c, negb (Chr.in_range 19968 40959 c))
                eq_refl c E) as Hn.
  simpl in Hc, Hn. by rewrite Hc in Hn.
Qed.

(** The baidu share link is a stretch of the text it was found in. *)
Lemma stretch_witness :
  let content := str "share: https://pan.baidu.com/s/1abcXYZ more text" in
  let l := str "https://pan.baidu.com/s/1abcXYZ" in
  l ∈ @_extract_links cjk_table content
  ∧ l ≠ []
  ∧ ∃ pre post, content = pre ++ l ++ post.
Proof.
  intros content l.
  assert (l ∈ @_extract_links cjk_table content) as Hl by by_computation.
  split; [exact Hl |].
  exact (@extracted_links_are_stretches_of_text cjk_table content l Hl).
Defined.

(** A text with a host name in it but no colon. *)
Lemma no_colon_witness :
  let content := str "see pan.baidu.com/s/1abcXYZ for the files" in
  (58%N ∉ content) ∧ @_extract_links cjk_table content = ∅.
Proof.
  intros content.
  assert (58%N ∉ content) as Hc by by_computation.
  split; [exact Hc |]. exact (@no_colon_no_links cjk_table content Hc).
Defined.

(** A magnet link and an ed2k link whose name has a blank in it. *)
Lemma no_space_witness :
  let content :=
    str "x magnet:?xt=urn:btih:0123456789abcdef0123456789abcdef01234567&dn=x y" in
  let l :=
    str "magnet:?xt=urn:btih:0123456789abcdef0123456789abcdef01234567&dn=x" in
  (∀ c, @uni_word cjk_table c = true → Chr.is_space c = false)
  ∧ l ∈ @_extract_links cjk_table content
  ∧ (@matches cjk_table p_ed2k l
     ∨ (Forall (λ c, Chr.is_space c = false) l ∧ storable l)).
Proof.
  intros content l.
  assert (l ∈ @_extract_links cjk_table content) as Hl by by_computation.
  split; [exact cjk_words_are_not_spaces |]. split; [exact Hl |].
  exact (@extracted_links_hold_no_space_but_ed2k cjk_table
           cjk_words_are_not_spaces content l Hl).
Defined.

(** The feed that parses at its third attempt. *)
Lemma third_attempt_witness :
  let es := [titled "https://quark.cn/s/bbb"] in
  let r := @_crawl_single_feed cjk_table ∅ (five feed_b) feed_b 3 {[feed_b]} in
  2 < 3
  ∧ five feed_b 2 = Parsed es
  ∧ (∀ j, j < 2 →
       ∃ msg, five feed_b j = Raises msg ∨ five feed_b j = Bozo msg)
  ∧ result r = Return (@links_in cjk_table es ∖ ∅)
  ∧ failed_after r = {[feed_b]} ∖ {[feed_b]}
  ∧ jitters (slept r) = 3.
Proof.
  intros es r.
  assert (2 < 3) as H1 by lia.
  assert (five feed_b 2 = Parsed es) as H2 by (vm_compute; reflexivity).
  assert (∀ j, j < 2 →
            ∃ msg, five feed_b j = Raises msg ∨ five feed_b j = Bozo msg) as H3.
  { intros j Hj. destruct j as [|[|j]]; [| | lia].
    - eexists. left. vm_compute. reflexivity.
    - eexists. right. vm_compute. reflexivity. }
  split; [exact H1 |]. split; [exact H2 |]. split; [exact H3 |].
  exact (@success_after_failures cjk_table ∅ (five feed_b) feed_b 3
           {[feed_b]} 2 es H1 H2 H3).
Defined.

(** The fetch of one feed, seen from another feed in the failed set. *)
Lemma own_feed_witness :
  let r := @_crawl_single_feed cjk_table ∅ always_raises feed_b 3 {[feed_a]} in
  let r' := @_crawl_single_feed cjk_table ∅ always_raises feed_b 3 ∅ in
  feed_a ≠ feed_b
  ∧ (feed_a ∈ failed_after r ↔ feed_a ∈ ({[feed_a]} : gset text))
  ∧ result r = result r'
  ∧ slept r = slept r'.
Proof.
  intros r r'.
  assert (feed_a ≠ feed_b) as Hne by by_computation.
  split; [exact Hne |].
  exact (@fetch_touches_only_its_feed cjk_table ∅ always_raises feed_b 3
           {[feed_a]} ∅ feed_a Hne).
Defined.


(** One cycle on a master file of one line, then a new crawler. *)
Lemma restart_witness :
  let d := with_master (encode (line (str "https://quark.cn/s/old"))) in
  let envs := [cycle one_link [feed_a] noon] in
  let w := @run cjk_table envs (fst (init [feed_a] d), d) in
  whole_lines (all_links_file d)
  ∧ (∀ env l, env ∈ envs → l ∈ @cycle_found cjk_table env → storable l)
  ∧ crawled_links (fst (init [feed_b] (snd w))) = crawled_links (fst w)
  ∧ crawled_links (fst w)
    = {[str "https://quark.cn/s/old"; str "https://pan.baidu.com/s/1abcXYZ"]}.
Proof.
  intros d envs w.
  assert (whole_lines (all_links_file d)) as H1.
  { split.
    - by_computation.
    - right. by exists (encode (str "https://quark.cn/s/old")). }
  assert (∀ env l, env ∈ envs → l ∈ @cycle_found cjk_table env → storable l)
    as H2.
  { intros env l Henv Hl. apply list_elem_of_singleton in Henv. subst env.
    assert (@cycle_found cjk_table (cycle one_link [feed_a] noon)
            = {[str "https://pan.baidu.com/s/1abcXYZ"]}) as Hf
      by (vm_compute; reflexivity).
    rewrite Hf in Hl. apply elem_of_singleton in Hl. subst l.
    unfold storable. by_computation. }
  split; [exact H1 |]. split; [exact H2 |].
  split; [| vm_compute; reflexivity].
  exact (proj1 (@restart_knows_the_same_links cjk_table [feed_a] [feed_b]
                  d envs H1 H2)).
Defined.

(** The damaged master file: what is loaded of it is storable. *)
Lemma loaded_witness :
  let l := str "https://quark.cn/s/one" in
  l ∈ fst (_load_existing_links (Some damaged) ∅)
  ∧ (l ∈ (∅ : gset text) ∨ storable l).
Proof.
  intros l.
  assert (l ∈ fst (_load_existing_links (Some damaged) ∅)) as Hl
    by by_computation.
  split; [exact Hl |].
  exact (proj1 (loaded_links_are_storable (Some damaged) ∅ l Hl)).
Defined.

(** The second cycle over the same feed: nothing new, nobody failed. *)
Lemma quiet_witness :
  let w1 := fst (@run_cycle cjk_table (cycle one_link [feed_a] noon)
                            (fresh [feed_a])) in
  let env := cycle one_link [feed_a] noon_later in
  snd (@run_cycle cjk_table env w1) = ∅
  ∧ failed_feeds (fst (fst (@run_cycle cjk_table env w1))) = ∅
  ∧ snd (fst (@run_cycle cjk_table env w1)) = snd w1.
Proof.
  intros w1 env.
  assert (snd (@run_cycle cjk_table env w1) = ∅) as H1
    by (vm_compute; reflexivity).
  assert (failed_feeds (fst (fst (@run_cycle cjk_table env w1))) = ∅) as H2
    by (vm_compute; reflexivity).
  split; [exact H1 |]. split; [exact H2 |].
  exact (proj1 (@quiet_cycle_writes_nothing cjk_table env w1 H1 H2)).
Defined.

(** Two readings of the clock in the same minute, and one a year on. *)
Lemma name_witness :
  let next_year :=
    {| year := 2026; month := 9; day := 3; hour := 12; minute := 0;
       second := 7 |} in
  on_calendar noon ∧ on_calendar next_year
  ∧ _get_timestamp_filename noon = _get_timestamp_filename next_year
  ∧ length (_get_timestamp_filename noon) = 12.
Proof.
  intros next_year.
  assert (on_calendar noon) as H1 by (unfold on_calendar; simpl; lia).
  assert (on_calendar next_year) as H2 by (unfold on_calendar; simpl; lia).
  split; [exact H1 |]. split; [exact H2 |].
  destruct (snapshot_name_tells_the_minute noon next_year H1 H2) as [Hiff Hlen].
  split; [| exact Hlen]. apply Hiff. repeat split.
Defined.

(** The feed that raises three times. *)
Lemma logged_witness :
  let env := cycle all_raise [feed_a] noon in
  let w := fresh [feed_a] in
  let r := @run_cycle cjk_table env w in
  feed_a ∈ completion env
  ∧ (∀ j, j < 2 →
       ∃ m, fetches env feed_a j = Raises m ∨ fetches env feed_a j = Bozo m)
  ∧ fetches env feed_a 2 = Raises (str "timed out")
  ∧ feed_a ∈ failed_feeds (fst (fst r))
  ∧ failed_log (snd (fst r))
    = append (failure_section (now_log env) (failed_feeds (fst (fst r))))
             (failed_log (snd w)).
Proof.
  intros env w r.
  assert (feed_a ∈ completion env) as H1 by by_computation.
  assert (∀ j, j < 2 →
            ∃ m, fetches env feed_a j = Raises m ∨ fetches env feed_a j = Bozo m)
    as H2.
  { intros j _. eexists. left. reflexivity. }
  assert (fetches env feed_a 2 = Raises (str "timed out")) as H3 by reflexivity.
  split; [exact H1 |]. split; [exact H2 |]. split; [exact H3 |].
  destruct (@raised_exhaustion_is_logged cjk_table env w feed_a _ H1 H2 H3)
    as (Ha & Hb & _).
  split; [exact Ha | exact Hb].
Defined.

End WorkedFurther.

(** ** Recovery *)

Section RecoveryFacts.
Context `{Unicode}.
Import Crawler Verdict.

(** X15: when every feed of the cycle parses within its three attempts,
    and the failed set held only feeds of the cycle, the failed set is
    empty after the cycle and the failure log is left as it was. *)
Theorem full_success_clears_the_failed_set (env : cycle_env)
    (w : crawler * disk) :
  (∀ f, f ∈ failed_feeds (fst w) → f ∈ completion env) →
  (∀ f, f ∈ completion env →
     ∃ k es, k < 3 ∧ fetches env f k = Parsed es
             ∧ ∀ j, j < k → ∃ msg, fetches env f j = Raises msg
                                   ∨ fetches env f j = Bozo msg) →
  failed_feeds (fst (fst (run_cycle env w))) = ∅
  ∧ failed_log (snd (fst (run_cycle env w))) = failed_log (snd w).
Proof.
  intros Hin Hok.
  assert (failed_feeds (fst (fst (run_cycle env w))) = ∅) as He.
  { apply set_eq. intros g. split; [| set_solver].
    rewrite run_cycle_failed_elem.
    destruct (decide (g ∈ completion env)) as [Hg | Hg]; [| by intros ?%Hin].
    destruct (Hok g Hg) as (k & es & Hk & Hp & Hfail).
    rewrite marked_self. unfold verdict_of.
    rewrite (verdict_succeeds (fetches env g) es k 0 3);
      [done | lia | done | intros j Hj; apply Hfail; lia]. }
  split; [done |]. rewrite run_cycle_failed_log, He.
  by destruct (decide ((∅ : gset text) = ∅)).
Qed.

End RecoveryFacts.

Section WorkedRecovery.
Import Crawler Verdict Sample.

(** Two feeds that failed in the cycle before and parse now. *)
Lemma recovery_witness :
  let w1 := fst (@run_cycle cjk_table (cycle all_raise [feed_a; feed_b] noon)
                            (fresh [feed_a; feed_b])) in
  let env := cycle one_link [feed_a; feed_b] noon_later in
  (∀ f, f ∈ failed_feeds (fst w1) → f ∈ completion env)
  ∧ (∀ f, f ∈ completion env →
       ∃ k es, k < 3 ∧ fetches env f k = Parsed es
               ∧ ∀ j, j < k → ∃ msg, fetches env f j = Raises msg
                                     ∨ fetches env f j = Bozo msg)
  ∧ failed_feeds (fst w1) = {[feed_a; feed_b]}
  ∧ failed_feeds (fst (fst (@run_cycle cjk_table env w1))) = ∅.
Proof.
  intros w1 env.
  assert (failed_feeds (fst w1) = {[feed_a; feed_b]}) as Hw
    by (vm_compute; reflexivity).
  assert (∀ f, f ∈ failed_feeds (fst w1) → f ∈ completion env) as H1.
  { intros f Hf. rewrite Hw in Hf.
    apply elem_of_union in Hf as [->%elem_of_singleton | ->%elem_of_singleton];
      by_computation. }
  assert (∀ f, f ∈ completion env →
            ∃ k es, k < 3 ∧ fetches env f k = Parsed es
                    ∧ ∀ j, j < k → ∃ msg, fetches env f j = Raises msg
                                          ∨ fetches env f j = Bozo msg) as H2.
  { intros f _. exists 0, [titled "share: https://pan.baidu.com/s/1abcXYZ more text"].
    split; [lia |]. split; [reflexivity |]. intros j Hj. lia. }
  split; [exact H1 |]. split; [exact H2 |]. split; [exact Hw |].
  exact (proj1 (@full_success_clears_the_failed_set cjk_table env w1 H1 H2)).
Defined.

End WorkedRecovery.

(** ** Links the engine does not miss *)

Section FindFacts.
Context `{Unicode}.
Import Re Extract Grammar Shape.

Lemma leads_cat r1 r2 base s e1 e2 :
  leads r1 base s e1 →
  leads r2 (base + ngroups r1) (fst e1) e2 →
  leads (Cat r1 r2) base s (fst e2, snd e2 ++ snd e1).
Proof.
  intros [l1 H1] [l2 H2]. unfold leads. simpl. rewrite H1.
  unfold and_then. simpl. rewrite H2. simpl. by eexists.
Qed.

Lemma leads_eps base s : leads Eps base s (s, []).
Proof. by exists []. Qed.

Lemma leads_lits (t : text) : ∀ base rest,
  leads (lits t) base (t ++ rest) (rest, []).
Proof.
  induction t as [|c t IH]; intros base rest; [apply leads_eps |].
  change (lits (c :: t)) with (Cat (Lit c) (lits t)).
  apply (leads_cat (Lit c) (lits t) base ((c :: t) ++ rest)
           (t ++ rest, []) (rest, [])); [| apply IH].
  exists []. simpl. unfold Chr.ci_eq. by rewrite N.eqb_refl.
Qed.

Lemma leads_grp r base s e :
  leads r (S base) s e →
  leads (Grp r) base s (fst e, (S base, consumed s (fst e)) :: snd e).
Proof. intros [l Hl]. unfold leads. simpl. rewrite Hl. by eexists. Qed.

Lemma hyphen_has_no_case d : Chr.ci_eq 45 d = (d =? 45)%N.
Proof.
  unfold Chr.ci_eq. change (Chr.fold_case 45) with 45%N.
  destruct (d =? 45)%N eqn:E.
  - apply N.eqb_eq in E. by subst.
  - apply N.eqb_neq. apply N.eqb_neq in E. unfold Chr.fold_case.
    destruct (Chr.is_upper d) eqn:E1.
    { unfold Chr.is_upper, Chr.in_range in E1.
      apply andb_true_iff in E1 as [?%N.leb_le ?%N.leb_le]. lia. }
    destruct (d =? 8490)%N; [done |].
    destruct (d =? 383)%N; [done |].
    destruct ((d =? 304)%N || (d =? 305)%N); [done | congruence].
Qed.

Lemma token_class c :
  class_match false [CWord; CChar (chr "-")] c = token_char c.
Proof.
  unfold class_match, token_char. simpl.
  change (chr "-") with 45%N. rewrite hyphen_has_no_case.
  by rewrite orb_false_r.
Qed.

Lemma ends_set items base d s :
  ends (set items) base (d :: s)
  = if class_match false items d then [(s, [])] else [].
Proof. reflexivity. Qed.

Lemma iter_star_S step fuel s :
  iter_star step (S fuel) s
  = flat_map (λ e1,
        if Nat.ltb (length (fst e1)) (length s)
        then (λ e2, (fst e2, snd e2 ++ snd e1)) <$> iter_star step fuel (fst e1)
        else [])
      (step s)
    ++ [(s, [])].
Proof. reflexivity. Qed.

(** The greedy token takes every token character there is. *)
Lemma iter_star_token post :
  (∀ c post', post = c :: post' → token_char c = false) →
  ∀ tok fuel base,
    length tok ≤ fuel →
    Forall (λ c, token_char c = true) tok →
    ∃ rest,
      iter_star (ends (set [CWord; CChar (chr "-")]) base) fuel (tok ++ post)
      = (post, []) :: rest.
Proof.
  intros Hpost. induction tok as [|c tok IH]; intros fuel base Hfuel Htok.
  - cbn [app]. destruct fuel as [|fuel]; [by eexists |].
    rewrite iter_star_S. destruct post as [|d post'].
    + by eexists.
    + rewrite ends_set, token_class, (Hpost d post' eq_refl). by eexists.
  - apply Forall_cons in Htok as [Hc Htok].
    destruct fuel as [|fuel]; [simpl in Hfuel; lia |].
    rewrite iter_star_S. rewrite <- app_comm_cons.
    rewrite ends_set, token_class, Hc. cbn [flat_map fst snd length].
    assert (Nat.ltb (length (tok ++ post)) (S (length (tok ++ post))) = true)
      as -> by (apply Nat.ltb_lt; lia).
    destruct (IH fuel base) as [rest ->]; [simpl in Hfuel; lia | done |].
    by eexists.
Qed.

Lemma leads_token base tok post :
  tok ≠ [] →
  Forall (λ c, token_char c = true) tok →
  (∀ c post', post = c :: post' → token_char c = false) →
  leads token base (tok ++ post) (post, []).
Proof.
  intros Hne Htok Hpost. destruct tok as [|c tok]; [done |].
  apply Forall_cons in Htok as [Hc Htok].
  unfold leads, token. rewrite <- app_comm_cons.
  change (ends (Plus (set [CWord; CChar (chr "-")])) base (c :: tok ++ post))
    with (and_then (ends (set [CWord; CChar (chr "-")]) base (c :: tok ++ post))
            (λ s1, iter_star (ends (set [CWord; CChar (chr "-")]) base)
                             (length s1) s1)).
  rewrite ends_set, token_class, Hc. unfold and_then. cbn [flat_map fst snd].
  destruct (iter_star_token post Hpost tok (length (tok ++ post)) base)
    as [rest ->]; [rewrite length_app; lia | done |].
  by eexists.
Qed.

Lemma leads_https base secure rest :
  leads https base (scheme secure ++ rest) (rest, []).
Proof.
  unfold https, cat. simpl foldr.
  destruct secure.
  - apply (leads_cat (lit "http") _ base (str "https://" ++ rest)
             (str "s://" ++ rest, []) (rest, [])); [apply (leads_lits (str "http")) |].
    apply (leads_cat (Opt (Lit (chr "s"))) _ _ (str "s://" ++ rest)
             (str "://" ++ rest, []) (rest, [])); [by eexists |].
    apply (leads_cat (lit "://") Eps _ (str "://" ++ rest)
             (rest, []) (rest, [])); [apply (leads_lits (str "://")) |].
    apply leads_eps.
  - apply (leads_cat (lit "http") _ base (str "http://" ++ rest)
             (str "://" ++ rest, []) (rest, [])); [apply (leads_lits (str "http")) |].
    apply (leads_cat (Opt (Lit (chr "s"))) _ _ (str "://" ++ rest)
             (str "://" ++ rest, []) (rest, [])); [by eexists |].
    apply (leads_cat (lit "://") Eps _ (str "://" ++ rest)
             (rest, []) (rest, [])); [apply (leads_lits (str "://")) |].
    apply leads_eps.
Qed.

(** At a share link the share pattern reports the whole link. *)
Lemma leads_share (p : string) secure tok post :
  tok ≠ [] →
  Forall (λ c, token_char c = true) tok →
  (∀ c post', post = c :: post' → token_char c = false) →
  ∃ caps,
    leads (share p) 0 (scheme secure ++ str p ++ tok ++ post) (post, caps)
    ∧ group caps 1 = scheme secure ++ str p ++ tok.
Proof.
  intros Hne Htok Hpost.
  assert (leads (cat [https; lit p; token]) 1
                (scheme secure ++ str p ++ tok ++ post) (post, [])) as Hl.
  { unfold cat. simpl foldr.
    apply (leads_cat https _ 1 _ (str p ++ tok ++ post, []) (post, []));
      [apply leads_https |].
    apply (leads_cat (lit p) _ _ _ (tok ++ post, []) (post, []));
      [apply (leads_lits (str p)) |].
    apply (leads_cat token Eps _ _ (post, []) (post, []));
      [by apply leads_token | apply leads_eps]. }
  apply leads_grp in Hl. eexists. split; [exact Hl |].
  unfold group. simpl.
  rewrite !app_assoc. rewrite consumed_app. by rewrite <- !app_assoc.
Qed.

Lemma ends_cat_nil r1 r2 base s :
  ends r1 base s = [] → ends (Cat r1 r2) base s = [].
Proof. intros Hr. simpl. by rewrite Hr. Qed.

Lemma ends_grp_nil r base s :
  ends r (S base) s = [] → ends (Grp r) base s = [].
Proof. intros Hr. simpl. by rewrite Hr. Qed.

Lemma share_fails_without_h (p : string) c s :
  Chr.ci_eq 104 c = false → ends (share p) 0 (c :: s) = [].
Proof.
  intros Hc. unfold share. apply ends_grp_nil.
  unfold cat. cbn [foldr]. apply ends_cat_nil.
  unfold https, cat. cbn [foldr]. apply ends_cat_nil.
  change (lit "http") with (Cat (Lit 104) (lits (str "ttp"))).
  apply ends_cat_nil. cbn [ends]. by rewrite Hc.
Qed.

(** The scan passes over text without the letter h and reports the share
    link that follows it. *)
Lemma scan_share (p : string) secure tok post : ∀ pre,
  Forall (λ c, Chr.ci_eq 104 c = false) pre →
  tok ≠ [] →
  Forall (λ c, token_char c = true) tok →
  (∀ c post', post = c :: post' → token_char c = false) →
  ∃ caps,
    (scheme secure ++ str p ++ tok, caps)
      ∈ scan (share p) 0 (pre ++ scheme secure ++ str p ++ tok ++ post)
    ∧ group caps 1 = scheme secure ++ str p ++ tok.
Proof.
  induction pre as [|c pre IH]; intros Hpre Hne Htok Hpost.
  - destruct (leads_share p secure tok post Hne Htok Hpost)
      as (caps & [rest Hl] & Hg).
    exists caps. split; [| done]. simpl app.
    assert (∃ d s', scheme secure ++ str p ++ tok ++ post = d :: s')
      as (d & s' & Hs) by (destruct secure; by eexists _, _).
    assert (consumed (scheme secure ++ str p ++ tok ++ post) post
            = scheme secure ++ str p ++ tok) as Hc.
    { by rewrite !app_assoc, consumed_app, <- !app_assoc. }
    rewrite Hs in *. cbn [scan]. rewrite Hl. cbn [fst snd]. rewrite Hc.
    apply list_elem_of_here.
  - apply Forall_cons in Hpre as [Hc Hpre].
    destruct (IH Hpre Hne Htok Hpost) as (caps & Hin & Hg).
    exists caps. split; [| done].
    rewrite <- app_comm_cons. cbn [scan].
    by rewrite share_fails_without_h.
Qed.

Lemma ngroups_lits t : ngroups (lits t) = 0.
Proof. induction t as [|c t IH]; simpl; [done | exact IH]. Qed.

Lemma ngroups_share (p : string) : ngroups (share p) = 1.
Proof.
  unfold share, cat, lit. cbn [foldr ngroups]. rewrite ngroups_lits.
  reflexivity.
Qed.

Lemma foldl_add_match_has m : ∀ items links,
  FStr m ∈ items → m ∈ foldl add_match links items.
Proof.
  induction items as [|i items IH]; intros links Hin;
    [by apply elem_of_nil in Hin |].
  apply elem_of_cons in Hin as [<- | Hin]; simpl; [| by apply IH].
  eapply (foldl_grows add_match add_match_grows). set_solver.
Qed.

Lemma foldl_add_pattern_has content r m : ∀ pats links,
  r ∈ pats → (∀ links, m ∈ add_pattern content links r) →
  m ∈ foldl (add_pattern content) links pats.
Proof.
  induction pats as [|r' pats IH]; intros links Hin Hr;
    [by apply elem_of_nil in Hin |].
  apply elem_of_cons in Hin as [<- | Hin]; simpl; [| by apply IH].
  eapply (foldl_grows _ (add_pattern_grows content)). apply Hr.
Qed.

(** X16: a share link of a provider of the catalog (scheme, host and
    path as in the pattern, then a token of word characters and hyphens)
    that stands in a text after a stretch without the letter h, and is
    followed by the end of the text or by a character that cannot go on
    the token, is among the links the engine returns. *)
Theorem share_link_is_found (p : string) (secure : bool)
    (pre tok post : text) :
  share p ∈ link_patterns →
  Forall (λ c, Chr.ci_eq 104 c = false) pre →
  tok ≠ [] →
  Forall (λ c, token_char c = true) tok →
  (∀ c post', post = c :: post' → token_char c = false) →
  scheme secure ++ str p ++ tok
    ∈ _extract_links (pre ++ scheme secure ++ str p ++ tok ++ post).
Proof.
  intros Hp Hpre Hne Htok Hpost.
  set (url := scheme secure ++ str p ++ tok).
  set (content := pre ++ scheme secure ++ str p ++ tok ++ post).
  unfold _extract_links.
  eapply update_grows. eapply update_grows.
  eapply (foldl_grows (λ links kv, foldl (add_domain content) links (snd kv))).
  { intros links kv. apply foldl_grows. apply add_domain_grows. }
  apply (foldl_add_pattern_has content (share p)); [done |].
  intros links. unfold add_pattern. apply foldl_add_match_has.
  destruct (scan_share p secure tok post pre Hpre Hne Htok Hpost)
    as (caps & Hin & Hg).
  unfold findall. apply list_elem_of_fmap.
  exists (url, caps). split; [| done].
  unfold findall_item. rewrite ngroups_share. cbn [fst snd].
  by rewrite Hg.
Qed.

End FindFacts.

Section WorkedFind.
Import Re Extract Grammar Shape Sample.

(** The baidu share link after a few words without the letter h. *)
Lemma found_witness :
  let p := "pan.baidu.com/s/"%string in
  let pre := str "link: " in
  let tok := str "1abc-XYZ" in
  let post := str " and more" in
  share p ∈ link_patterns
  ∧ Forall (λ c, Chr.ci_eq 104 c = false) pre
  ∧ tok ≠ []
  ∧ Forall (λ c, @token_char cjk_table c = true) tok
  ∧ (∀ c post', post = c :: post' → @token_char cjk_table c = false)
  ∧ str "https://pan.baidu.com/s/1abc-XYZ"
      ∈ @_extract_links cjk_table
          (str "link: https://pan.baidu.com/s/1abc-XYZ and more").
Proof.
  intros p pre tok post.
  assert (share p ∈ link_patterns) as H1 by apply list_elem_of_here.
  assert (Forall (λ c, Chr.ci_eq 104 c = false) pre) as H2 by by_computation.
  assert (tok ≠ []) as H3 by done.
  assert (Forall (λ c, @token_char cjk_table c = true) tok) as H4
    by by_computation.
  assert (∀ c post', post = c :: post' → @token_char cjk_table c = false)
    as H5.
  { intros c post' Hp. injection Hp as <- _. reflexivity. }
  split; [exact H1 |]. split; [exact H2 |]. split; [exact H3 |].
  split; [exact H4 |]. split; [exact H5 |].
  exact (@share_link_is_found cjk_table p true pre tok post H1 H2 H3 H4 H5).
Defined.

End WorkedFind.
